(** * The HDFS pipe of storagetapper (pipe/hdfs.go)

    A shallow embedding of the HDFS adapter ([hdfsClient]), of its retry
    wrapper ([withRetry]) and of the polling consumer ([hdfsConsumer]).

    Go values are modelled as follows.
    - [error] is an interface value: [None] is [nil], [Some e] carries the
      text returned by [e.Error()].
    - [int], [int64] and [time.Duration] are [Z]; no operation of this file
      leaves the 64-bit range (the loop counter of [withRetry] stays below
      [retryTimeout*10 = 100]).
    - Side effects are threaded explicitly: a computation is a function
      from a [World] (the state it may touch, plus the trace of observable
      events so far) to its result and the next [World].
    - The unbounded [for { ... }] loops of the consumer take a [fuel]
      argument that bounds the number of iterations; [None] means that the
      loop is still running after [fuel] iterations. *)

From Stdlib Require Import ZArith List String Ascii Bool Lia.
Import ListNotations.
Local Open Scope string_scope.
Local Open Scope Z_scope.

(** ** Go values *)

(** A non-nil [error]: all this file ever does with one is call [Error()]. *)
Record errorValue : Type := errorString { Error : string }.

(** The interface type [error]; [None] is [nil]. *)
Definition error : Type := option errorValue.

(** ** Package strings *)

Module strings.

Fixpoint HasPrefix (s prefix : string) {struct prefix} : bool :=
  match prefix, s with
  | EmptyString, _ => true
  | String a prefix', String b s' => Ascii.eqb a b && HasPrefix s' prefix'
  | String _ _, EmptyString => false
  end.

(** [Index(s, substr) >= 0]: some suffix of [s] starts with [substr]. *)
Fixpoint Contains (s substr : string) : bool :=
  HasPrefix s substr ||
  match s with
  | EmptyString => false
  | String _ s' => Contains s' substr
  end.

(** [len(s) >= len(suffix) && s[len(s)-len(suffix):] == suffix] *)
Definition HasSuffix (s suffix : string) : bool :=
  (String.length suffix <=? String.length s)%nat &&
  String.eqb
    (substring (String.length s - String.length suffix) (String.length suffix) s)
    suffix.

End strings.

(** ** Package time *)

Module time.

(** [time.Duration] counts nanoseconds. *)
Definition Duration : Type := Z.
Definition Millisecond : Duration := 1000000.

End time.

(** ** Package os *)

Module os.

Definition FileMode : Type := Z.
Definition SEEK_SET : Z := 0.

End os.

(** ** Package log *)

Module log.

(** Modelled from the spec: [log.E] belongs to the repository's log
    package, outside pipe/hdfs.go.  "Discovery returns an error -> store it
    on the consumer": [E err] logs [err] and reports whether it is
    non-nil. *)
Definition E (err : error) : bool :=
  match err with
  | Some _ => true
  | None => false
  end.

End log.

(** ** Observable events *)

(** Calls of the HDFS client that the adapter makes directly. *)
Inductive clientOp : Type :=
| opOpen (name : string)
| opSeek (offset whence : Z)
| opAppend (name : string)
| opCreate (name : string).

Inductive event : Type :=
| Sleep (d : time.Duration)
    (* time.Sleep(d) *)
| Attempt (r : error)
    (* withRetry called fn(), which returned r *)
| ClientCall (op : clientOp) (r : error)
    (* a direct call of the HDFS client, with the error it returned *)
| NextFile (topic cur next : string) (r : error)
    (* p.nextFile(topic, cur) returned (next, r) *)
| OpenFile (name : string) (offset : Z)
    (* p.openFile(name, offset) *)
| FetchNextLow (more : bool).
    (* p.fetchNextLow() returned more *)

(** ** Worlds and computations *)

Record World (S : Type) : Type := mkWorld { state : S; trace : list event }.
Arguments mkWorld {S} _ _.
Arguments state {S} _.
Arguments trace {S} _.

Definition M (S A : Type) : Type := World S -> A * World S.

Definition ret {S A : Type} (a : A) : M S A := fun w => (a, w).

Definition bind {S A B : Type} (c : M S A) (k : A -> M S B) : M S B :=
  fun w => let (a, w') := c w in k a w'.

Notation "x <- c ;; k" := (bind c (fun x => k))
  (at level 61, c at next level, right associativity).
Notation "c ;;; k" := (bind c (fun _ => k))
  (at level 61, right associativity).

Definition emit {S : Type} (ev : event) : M S unit :=
  fun w => (tt, mkWorld (state w) (trace w ++ [ev])).

(** Runs [f] on the state, leaving the trace alone. *)
Definition lift {S A : Type} (f : S -> A * S) : M S A :=
  fun w => let (a, s') := f (state w) in (a, mkWorld s' (trace w)).

Definition timeSleep {S : Type} (d : time.Duration) : M S unit := emit (Sleep d).

(** ** The retry wrapper *)

Definition retryTimeout : Z := 10. (* seconds *)

Definition StandbyException : string :=
  "org.apache.hadoop.ipc.StandbyException".
Definition RetriableException : string :=
  "org.apache.hadoop.ipc.RetriableException".

Definition retriable (err : errorValue) : bool :=
  strings.Contains (Error err) StandbyException ||
  strings.Contains (Error err) RetriableException.

Section Retry.

Context {S : Type}.

(** A closure [func() error]: it may read and change the state [S]. *)
Definition closure : Type := S -> error * S.

(** One call [fn()]. *)
Definition invoke (fn : closure) : M S error :=
  r <- lift fn ;; emit (Attempt r) ;;; ret r.

(** The guard [err != nil && retriable(err) && i < limit]. *)
Definition retryGuard (limit i : Z) (err : error) : bool :=
  match err with
  | None => false
  | Some e => retriable e && (i <? limit)
  end.

(** The loop of [withRetry], entered with counter [i] and current [err].
    [fuel] is the structural argument only: [withRetry] passes as much
    fuel as the guard [i < limit] allows iterations. *)
Fixpoint retryLoop (fn : closure) (limit : Z) (fuel : nat) (i : Z) (err : error)
  : M S error :=
  match fuel with
  | O => ret err
  | Datatypes.S fuel' =>
      if retryGuard limit i err then
        timeSleep (100 * time.Millisecond) ;;;
        err' <- invoke fn ;;
        retryLoop fn limit fuel' (i + 1) err'
      else ret err
  end.

Definition withRetry (fn : closure) : M S error :=
  err <- invoke fn ;;
  retryLoop fn (retryTimeout * 10) (Z.to_nat (retryTimeout * 10)) 0 err.

(** [fn] fails with a transiently classified error whenever it is called. *)
Definition alwaysTransient (fn : closure) : Prop :=
  forall s, exists e, fst (fn s) = Some e /\ retriable e = true.

End Retry.

(** ** The HDFS client library (github.com/colinmarc/hdfs) *)

Module hdfs.

(** The operations of [*hdfs.Client], of [*hdfs.FileReader] and of the
    [io.WriteCloser] it hands out, over the state [C] of the cluster and of
    the open handles.  [R] and [W] are the reader and writer handles.  The
    library returns either a handle or an error from [Open], [Append] and
    [Create]. *)
Record Client (C R W : Type) : Type := mkClient {
  Open : string -> C -> (R + errorValue) * C;
  Seek : R -> Z -> Z -> C -> (Z * error) * C;
  Append : string -> C -> (W + errorValue) * C;
  Create : string -> C -> (W + errorValue) * C;
  MkdirAll : string -> os.FileMode -> C -> error * C;
  Rename : string -> string -> C -> error * C;
  Remove : string -> C -> error * C;
  Close : W -> C -> error * C
}.

Arguments Open {C R W} _ _ _.
Arguments Seek {C R W} _ _ _ _ _.
Arguments Append {C R W} _ _ _.
Arguments Create {C R W} _ _ _.
Arguments MkdirAll {C R W} _ _ _ _.
Arguments Rename {C R W} _ _ _ _.
Arguments Remove {C R W} _ _ _.
Arguments Close {C R W} _ _ _.

End hdfs.

(** ** The adapter [hdfsClient] *)

Section Adapter.

Context {C R W : Type}.

Record hdfsClient : Type := mkHdfsClient { Client : hdfs.Client C R W }.

(** The Go pair [(f, err)] of a library result. *)
Definition handleOf {H : Type} (r : H + errorValue) : option H :=
  match r with
  | inl f => Some f
  | inr _ => None
  end.

Definition errorOf {H : Type} (r : H + errorValue) : error :=
  match r with
  | inl _ => None
  | inr e => Some e
  end.

(** A direct call of the client that returns a handle or an error. *)
Definition callOpen {H : Type} (op : clientOp) (f : C -> (H + errorValue) * C)
  : M C (H + errorValue) :=
  r <- lift f ;; emit (ClientCall op (errorOf r)) ;;; ret r.

(** A direct call of the client that returns a value and an error. *)
Definition callErr {A : Type} (op : clientOp) (f : C -> (A * error) * C)
  : M C (A * error) :=
  r <- lift f ;; emit (ClientCall op (snd r)) ;;; ret r.

Definition OpenRead (p : hdfsClient) (name : string) (offset : Z)
  : M C (option R * error) :=
  r <- callOpen (opOpen name) (hdfs.Open (Client p) name) ;;
  match r with
  | inr err => ret (None, Some err)
  | inl f =>
      r' <- callErr (opSeek offset os.SEEK_SET)
                    (hdfs.Seek (Client p) f offset os.SEEK_SET) ;;
      match snd r' with
      | Some err => ret (None, Some err)
      | None => ret (Some f, None)
      end
  end.

(** The second component is the [io.Seeker], always [nil]; with no seeker
    ever built its type is empty. *)
Definition OpenWrite (p : hdfsClient) (name : string)
  : M C (option W * option Empty_set * error) :=
  r <- callOpen (opAppend name) (hdfs.Append (Client p) name) ;;
  r <- match errorOf r with
       | Some _ => callOpen (opCreate name) (hdfs.Create (Client p) name)
       | None => ret r
       end ;;
  ret (handleOf r, None, errorOf r).

Definition MkdirAll (p : hdfsClient) (path : string) (perm : os.FileMode)
  : M C error :=
  withRetry (hdfs.MkdirAll (Client p) path perm).

Definition Rename (p : hdfsClient) (oldpath newpath : string) : M C error :=
  withRetry (hdfs.Rename (Client p) oldpath newpath).

Definition Remove (p : hdfsClient) (path : string) : M C error :=
  withRetry (hdfs.Remove (Client p) path).

Definition Close (p : hdfsClient) (f : W) : M C error :=
  withRetry (hdfs.Close (Client p) f).

End Adapter.

Arguments hdfsClient : clear implicits.

(** ** An in-memory cluster *)

Module memfs.

(** Modelled from the spec: the distributed-filesystem client is an
    external collaborator "exposing primitive open/append/create/seek/
    rename/remove/mkdir operations and surfacing failures with enough
    detail to classify transience".  Opening for reading "fails if the file
    does not exist or the seek target exceeds file length"; appending
    succeeds on an existing path "without truncation" and fails on a
    missing one, where creating succeeds; a "metadata node temporarily in
    standby" fails the calls that reach it with a transient error.

    [standby] counts the calls that the name node will still refuse.
    A reader handle is an index into [readers]; a writer handle is the path
    it writes to. *)

Record reader : Type := mkReader { rpath : string; rpos : Z }.

Record cluster : Type := mkCluster {
  files : list (string * list Byte.byte);
  dirs : list string;
  readers : list reader;
  standby : nat
}.

Fixpoint lookup (name : string) (fs : list (string * list Byte.byte))
  : option (list Byte.byte) :=
  match fs with
  | [] => None
  | (n, bs) :: fs' => if String.eqb n name then Some bs else lookup name fs'
  end.

Fixpoint delete (name : string) (fs : list (string * list Byte.byte))
  : list (string * list Byte.byte) :=
  match fs with
  | [] => []
  | (n, bs) :: fs' =>
      if String.eqb n name then delete name fs' else (n, bs) :: delete name fs'
  end.

Definition errStandby : errorValue :=
  errorString
    ("org.apache.hadoop.ipc.StandbyException: " ++
     "Operation category READ is not supported in state standby").
Definition errNotExist : errorValue := errorString "file does not exist".
Definition errExist : errorValue := errorString "file already exists".
Definition errOffset : errorValue := errorString "invalid resulting offset".
Definition errWhence : errorValue := errorString "invalid whence".
Definition errClosed : errorValue := errorString "io: read/write on closed pipe".

Definition withFiles (c : cluster) (fs : list (string * list Byte.byte)) : cluster :=
  mkCluster fs (dirs c) (readers c) (standby c).

(** A call that reaches the name node: refused while it is in standby. *)
Definition rpc {A : Type} (refused : errorValue -> A) (f : cluster -> A * cluster)
  (c : cluster) : A * cluster :=
  match standby c with
  | O => f c
  | S n => (refused errStandby, mkCluster (files c) (dirs c) (readers c) n)
  end.

Definition Open (name : string) : cluster -> (nat + errorValue) * cluster :=
  rpc inr (fun c =>
    match lookup name (files c) with
    | None => (inr errNotExist, c)
    | Some _ =>
        (inl (List.length (readers c)),
         mkCluster (files c) (dirs c) (readers c ++ [mkReader name 0]) (standby c))
    end).

Fixpoint setPos (h : nat) (pos : Z) (rs : list reader) : list reader :=
  match rs, h with
  | [], _ => []
  | r :: rs', O => mkReader (rpath r) pos :: rs'
  | r :: rs', S h' => r :: setPos h' pos rs'
  end.

Definition size (c : cluster) (name : string) : Z :=
  match lookup name (files c) with
  | Some bs => Z.of_nat (List.length bs)
  | None => 0
  end.

Definition Seek (h : nat) (offset whence : Z) (c : cluster) : (Z * error) * cluster :=
  match nth_error (readers c) h with
  | None => ((0, Some errClosed), c)
  | Some r =>
      let target :=
        if whence =? 0 then Some offset
        else if whence =? 1 then Some (rpos r + offset)
        else if whence =? 2 then Some (size c (rpath r) + offset)
        else None in
      match target with
      | None => ((rpos r, Some errWhence), c)
      | Some off =>
          if (off <? 0) || (size c (rpath r) <? off)
          then ((rpos r, Some errOffset), c)
          else ((off, None),
                mkCluster (files c) (dirs c) (setPos h off (readers c)) (standby c))
      end
  end.

(** Reads one byte from reader [h]: [None] at the end of the file. *)
Definition ReadByte (h : nat) (c : cluster) : option Byte.byte * cluster :=
  match nth_error (readers c) h with
  | None => (None, c)
  | Some r =>
      match lookup (rpath r) (files c) with
      | None => (None, c)
      | Some bs =>
          match nth_error bs (Z.to_nat (rpos r)) with
          | None => (None, c)
          | Some b =>
              (Some b,
               mkCluster (files c) (dirs c) (setPos h (rpos r + 1) (readers c))
                 (standby c))
          end
      end
  end.

Definition Append (name : string) : cluster -> (string + errorValue) * cluster :=
  rpc inr (fun c =>
    match lookup name (files c) with
    | None => (inr errNotExist, c)
    | Some _ => (inl name, c)
    end).

Definition Create (name : string) : cluster -> (string + errorValue) * cluster :=
  rpc inr (fun c =>
    match lookup name (files c) with
    | Some _ => (inr errExist, c)
    | None => (inl name, withFiles c ((name, []) :: files c))
    end).

Definition MkdirAll (path : string) (perm : os.FileMode) : cluster -> error * cluster :=
  rpc Some (fun c =>
    (None, mkCluster (files c) (path :: dirs c) (readers c) (standby c))).

Definition Rename (oldpath newpath : string) : cluster -> error * cluster :=
  rpc Some (fun c =>
    match lookup oldpath (files c) with
    | None => (Some errNotExist, c)
    | Some bs =>
        (None, withFiles c ((newpath, bs) :: delete newpath (delete oldpath (files c))))
    end).

Definition Remove (path : string) : cluster -> error * cluster :=
  rpc Some (fun c =>
    match lookup path (files c) with
    | None => (Some errNotExist, c)
    | Some _ => (None, withFiles c (delete path (files c)))
    end).

Definition Close (f : string) : cluster -> error * cluster :=
  rpc Some (fun c => (None, c)).

Definition client : hdfs.Client cluster nat string :=
  hdfs.mkClient cluster nat string
    Open Seek Append Create MkdirAll Rename Remove Close.

Definition adapter : hdfsClient cluster nat string := mkHdfsClient client.

End memfs.

(** ** The consumer [hdfsConsumer] *)

(** The fields of [fileConsumer] that pipe/hdfs.go reads or writes; [rest]
    stands for everything else the consumer can reach (the open file, the
    pipe it belongs to, the file system, its context). *)
Record fileConsumer (X : Type) : Type := mkFileConsumer {
  topic : string;
  name : string;
  err : error;
  rest : X
}.
Arguments mkFileConsumer {X} _ _ _ _.
Arguments topic {X} _.
Arguments name {X} _.
Arguments err {X} _.
Arguments rest {X} _.

(** The methods that [hdfsConsumer] inherits from [fileConsumer] and
    [filePipe], defined outside pipe/hdfs.go. *)
Record fileConsumerMethods (X : Type) : Type := mkMethods {
  nextFile : string -> string -> fileConsumer X -> (string * error) * fileConsumer X;
  openFile : string -> Z -> fileConsumer X -> unit * fileConsumer X;
  fetchNextLow : fileConsumer X -> bool * fileConsumer X
}.
Arguments nextFile {X} _ _ _ _.
Arguments openFile {X} _ _ _ _.
Arguments fetchNextLow {X} _ _.

Section Consumer.

Context {X : Type}.
Variable methods : fileConsumerMethods X.

Definition hdfsConsumer : Type := fileConsumer X.

(** A run of an unbounded loop, cut after [fuel] iterations: the result is
    [None] while the loop has not returned, and the world is the one
    reached so far. *)
Definition Run (A : Type) : Type := option A * World hdfsConsumer.

Definition callNextFile (topic cur : string) : M hdfsConsumer (string * error) :=
  r <- lift (nextFile methods topic cur) ;;
  emit (NextFile topic cur (fst r) (snd r)) ;;; ret r.

Definition callOpenFile (nextFn : string) (offset : Z) : M hdfsConsumer unit :=
  emit (OpenFile nextFn offset) ;;; lift (openFile methods nextFn offset).

Definition callFetchNextLow : M hdfsConsumer bool :=
  b <- lift (fetchNextLow methods) ;; emit (FetchNextLow b) ;;; ret b.

(** [p.err = err] *)
Definition setErr (e : error) : M hdfsConsumer unit :=
  lift (fun p => (tt, mkFileConsumer (topic p) (name p) e (rest p))).

Fixpoint waitAndOpenNextFile (fuel : nat) (w : World hdfsConsumer) : Run bool :=
  match fuel with
  | O => (None, w)
  | S fuel' =>
      let '((nextFn, err), w1) :=
        callNextFile (topic (state w)) (name (state w)) w in
      if log.E err then
        let (_, w2) := setErr err w1 in
        (Some true, w2)
      else if negb (String.eqb nextFn "") && negb (strings.HasSuffix nextFn ".open")
      then
        let (_, w2) := callOpenFile nextFn 0 w1 in
        (Some true, w2)
      else
        let (_, w2) := timeSleep (200 * time.Millisecond) w1 in
        waitAndOpenNextFile fuel' w2
  end.

Fixpoint FetchNext (fuel : nat) (w : World hdfsConsumer) : Run bool :=
  match fuel with
  | O => (None, w)
  | S fuel' =>
      let (more, w1) := callFetchNextLow w in
      if more then (Some true, w1)
      else
        match waitAndOpenNextFile fuel w1 with
        | (None, w2) => (None, w2)
        | (Some opened, w2) =>
            if negb opened then (Some false, w2) (* context canceled, no message *)
            else
              match err (state w2) with
              | Some _ => (Some true, w2) (* has message with error set *)
              | None => FetchNext fuel' w2
              end
        end
  end.

End Consumer.

(** ** Runs of the retry wrapper *)

(** [retryRun err tr r]: started with the result [err] of the latest call
    of [fn], the loop of [withRetry] produces the events [tr] and ends with
    [r].  Every round is entered on a transient failure, sleeps 100 ms and
    calls [fn] once. *)
Inductive retryRun : error -> list event -> error -> Prop :=
| retryStop r : retryRun r [] r
| retryAgain e r' tr r :
    retriable e = true ->
    retryRun r' tr r ->
    retryRun (Some e) (Sleep (100 * time.Millisecond) :: Attempt r' :: tr) r.

Definition isAttempt (ev : event) : bool :=
  match ev with
  | Attempt _ => true
  | _ => false
  end.

(** Number of calls of [fn] recorded in a trace. *)
Definition attempts (tr : list event) : nat := List.length (filter isAttempt tr).

(** The durations slept in a trace, in order. *)
Fixpoint sleeps (tr : list event) : list time.Duration :=
  match tr with
  | [] => []
  | Sleep d :: tr' => d :: sleeps tr'
  | _ :: tr' => sleeps tr'
  end.

(** A permanent outcome of a call: success or a failure that is not
    classified transient. *)
Definition permanent (r : error) : Prop :=
  r = None \/ exists e, r = Some e /\ retriable e = false.

(** [c] is [withRetry fn]: its trace starts with a call of [fn] recorded by
    the wrapper and goes on with the rounds of the wrapper's loop. *)
Definition retried {S : Type} (fn : @closure S) (c : M S error) : Prop :=
  forall w,
    c w = withRetry fn w /\
    exists rounds,
      trace (snd (c w)) = (trace w ++ Attempt (fst (fn (state w))) :: rounds)%list /\
      retryRun (fst (fn (state w))) rounds (fst (c w)).

(** [c] never enters the wrapper: it records no call by the wrapper and
    never sleeps. *)
Definition unretried {S A : Type} (c : M S A) : Prop :=
  forall w,
    exists tr,
      trace (snd (c w)) = (trace w ++ tr)%list /\ attempts tr = O /\ sleeps tr = [].

(** ** The consumer's view of names *)

(** A name that carries the in-progress marker. *)
Definition inProgress (n : string) : Prop :=
  exists before, n = before ++ ".open".

(** ** Test doubles *)

Module doubles.


(** An error that is not transient. *)
Definition errPermission : errorValue := errorString "permission denied".

(** Fails with a standby error on its first two calls, then with a
    permission error. *)
Definition standbyThenDenied : @closure nat :=
  fun n => (Some (if (n <? 2)%nat then memfs.errStandby else errPermission), S n).

(** Fails with a standby error on its first two calls, then succeeds. *)
Definition standbyThenOk : @closure nat :=
  fun n => (if (n <? 2)%nat then Some memfs.errStandby else None, S n).

(** Always fails with a permission error. *)
Definition denied : @closure nat := fun n => (Some errPermission, S n).

(** A consumer environment driven by a script: [answers] are the results
    that [nextFile] will give, in order, and an empty name with no error
    once the script is over; [unread] counts the records left in the open
    file.  Every file holds one record. *)
Record env : Type := mkEnv { answers : list (string * error); unread : nat }.

Definition scriptedNextFile (_topic _cur : string) (p : fileConsumer env)
  : (string * error) * fileConsumer env :=
  match answers (rest p) with
  | [] => (("", None), p)
  | a :: more =>
      (a, mkFileConsumer (topic p) (name p) (err p) (mkEnv more (unread (rest p))))
  end.

Definition scriptedOpenFile (nextFn : string) (offset : Z) (p : fileConsumer env)
  : unit * fileConsumer env :=
  (tt, mkFileConsumer (topic p) nextFn None (mkEnv (answers (rest p)) 1)).

Definition scriptedFetchNextLow (p : fileConsumer env) : bool * fileConsumer env :=
  match unread (rest p) with
  | O => (false, p)
  | S n =>
      (true, mkFileConsumer (topic p) (name p) (err p) (mkEnv (answers (rest p)) n))
  end.

Definition scripted : fileConsumerMethods env :=
  mkMethods env scriptedNextFile scriptedOpenFile scriptedFetchNextLow.

Definition consumer (script : list (string * error)) : World (fileConsumer env) :=
  mkWorld (mkFileConsumer "T" "" None (mkEnv script 0)) [].

End doubles.

(** ** Calls of a closure in sequence *)

(** A product or sum of [int] values, 64 bits wide in two's complement:
    what is out of range wraps around. *)
Definition wrapInt (z : Z) : Z := (z + 2 ^ 63) mod 2 ^ 64 - 2 ^ 63.

Section Calls.

Context {St : Type}.
Variable fn : @closure St.

(** The state after [k] calls of [fn], started in [s]. *)
Fixpoint stateAfter (k : nat) (s : St) : St :=
  match k with
  | O => s
  | S k' => stateAfter k' (snd (fn s))
  end.

(** The result of call number [k] of [fn], counted from 0. *)
Definition resultOf (k : nat) (s : St) : error := fst (fn (stateAfter k s)).

(** The events of [k] rounds of the loop of [withRetry], the first of
    which calls [fn] in state [s]. *)
Fixpoint roundsOf (k : nat) (s : St) : list event :=
  match k with
  | O => []
  | S k' =>
      Sleep (100 * time.Millisecond) :: Attempt (fst (fn s))
        :: roundsOf k' (snd (fn s))
  end.

(** [withRetry] as it runs when the variable [retryTimeout] holds
    [timeout]: the bound of the loop is the product [retryTimeout*10] as
    [int] arithmetic gives it. *)
Definition withRetryAt (timeout : Z) : M St error :=
  err <- invoke fn ;;
  retryLoop fn (wrapInt (timeout * 10)) (Z.to_nat (wrapInt (timeout * 10))) 0 err.

(** The events of [k + 1] calls of [fn] started in state [s], with a sleep
    of 100 ms before each call but the first. *)
Definition callsTrace (k : nat) (s : St) : list event :=
  Attempt (fst (fn s)) :: roundsOf k (snd (fn s)).

(** What [k + 1] such calls make of the world [w]: the result of the last
    call, the state that the calls leave, and their events after those of
    [w]. *)
Definition afterCalls (k : nat) (w : World St) : error * World St :=
  (resultOf k (state w),
   mkWorld (stateAfter (S k) (state w)) (trace w ++ callsTrace k (state w))%list).

End Calls.

(** A transient outcome of a call. *)
Definition transient (r : error) : Prop :=
  exists e, r = Some e /\ retriable e = true.

(** The first [k] calls of [fn], started in state [s], all fail
    transiently. *)
Definition failsFirst {St : Type} (fn : @closure St) (k : nat) (s : St) : Prop :=
  forall j, (j < k)%nat -> transient (resultOf fn j s).

(** [op] gets over [k] transient failures of [fn]: when the first [k]
    calls of [fn] fail transiently and the next one does not, [op] is
    these [k + 1] calls. *)
Definition recovers {St : Type} (fn : @closure St) (op : M St error) (k : nat)
  (w : World St) : Prop :=
  failsFirst fn k (state w) ->
  permanent (resultOf fn k (state w)) ->
  op w = afterCalls fn k w.

(** [op] gives up on [fn]: when the first 101 calls of [fn] fail
    transiently, [op] is these 101 calls. *)
Definition givesUp {St : Type} (fn : @closure St) (op : M St error)
  (w : World St) : Prop :=
  failsFirst fn 101 (state w) ->
  op w = afterCalls fn 100 w.

(** ** Runs of the wait loop *)

(** [waitRun tr r]: the events of a run of [waitAndOpenNextFile] with
    result [r].  Discoveries that give no name or a name in progress are
    each followed by a sleep of 200 ms; the run returns after a discovery
    that failed, or that gave a finalized name, opened at offset 0. *)
Inductive waitRun : list event -> option bool -> Prop :=
| waitPolling : waitRun [] None
| waitFailed t c n e : waitRun [NextFile t c n (Some e)] (Some true)
| waitOpened t c n :
    n <> "" -> ~ inProgress n ->
    waitRun [NextFile t c n None; OpenFile n 0] (Some true)
| waitAgain t c n tr r :
    n = "" \/ inProgress n ->
    waitRun tr r ->
    waitRun (NextFile t c n None :: Sleep (200 * time.Millisecond) :: tr) r.

(** Number of calls of [nextFile] recorded in a trace. *)
Fixpoint discoveries (tr : list event) : nat :=
  match tr with
  | [] => O
  | NextFile _ _ _ _ :: tr' => S (discoveries tr')
  | _ :: tr' => discoveries tr'
  end.

Section Polls.

Context {X : Type}.
Variable methods : fileConsumerMethods X.

(** [pollsTo k s s']: started in state [s], the next [k] discoveries give
    no error and no finalized name, and leave the consumer in state
    [s']. *)
Inductive pollsTo : nat -> fileConsumer X -> fileConsumer X -> Prop :=
| pollsNone s : pollsTo O s s
| pollsOnce k s n s1 s' :
    nextFile methods (topic s) (name s) s = ((n, None), s1) ->
    n = "" \/ inProgress n ->
    pollsTo k s1 s' ->
    pollsTo (S k) s s'.

End Polls.

(** A closure over a call counter: fails with a standby error on its
    first [k] calls, then succeeds. *)
Definition standbyFor (k : nat) : @closure nat :=
  fun n => (if (n <? k)%nat then Some memfs.errStandby else None, S n).

(** The events of [k] iterations of the wait loop that go on to the next
    one, started in state [s]. *)
Fixpoint pollEvents {X : Type} (methods : fileConsumerMethods X) (k : nat)
  (s : fileConsumer X) : list event :=
  match k with
  | O => []
  | S k' =>
      NextFile (topic s) (name s)
        (fst (fst (nextFile methods (topic s) (name s) s)))
        (snd (fst (nextFile methods (topic s) (name s) s)))
        :: Sleep (200 * time.Millisecond)
        :: pollEvents methods k' (snd (nextFile methods (topic s) (name s) s))
  end.

(** The scripted consumer with an [openFile] that fails: it leaves a
    permission error in [p.err] and opens nothing. *)
Definition openFails : fileConsumerMethods doubles.env :=
  mkMethods doubles.env doubles.scriptedNextFile
    (fun _ _ p =>
       (tt, mkFileConsumer (topic p) (name p) (Some doubles.errPermission) (rest p)))
    doubles.scriptedFetchNextLow.

(** A client over a call counter whose metadata calls are refused with a
    standby error for the first [k] calls and succeed afterwards; it has
    no file to open. *)
Definition flakyClient (k : nat) : hdfs.Client nat unit unit :=
  hdfs.mkClient nat unit unit
    (fun _ n => (inr doubles.errPermission, S n))
    (fun _ _ _ n => ((0, None), n))
    (fun _ n => (inr doubles.errPermission, S n))
    (fun _ n => (inr doubles.errPermission, S n))
    (fun _ _ => standbyFor k)
    (fun _ _ => standbyFor k)
    (fun _ => standbyFor k)
    (fun _ => standbyFor k).

(** * Properties *)

(** ** Strings *)

Lemma HasPrefix_iff (s prefix : string) :
  strings.HasPrefix s prefix = true <-> exists rest, s = prefix ++ rest.
Proof.
  revert s; induction prefix as [|a prefix IH]; intros s; simpl.
  - split; [intros _; now exists s | reflexivity].
  - destruct s as [|b s].
    + split; [discriminate | intros [rest H]; discriminate].
    + rewrite andb_true_iff, Ascii.eqb_eq, IH. split.
      * intros [-> [rest ->]]. now exists rest.
      * intros [rest H]. injection H as -> ->. split; [reflexivity | now exists rest].
Qed.

Lemma Contains_iff (s substr : string) :
  strings.Contains s substr = true <->
  exists before after, s = before ++ substr ++ after.
Proof.
  induction s as [|b s IH]; simpl.
  - rewrite orb_false_r, HasPrefix_iff. split.
    + intros [rest H]. now exists "", rest.
    + intros [before [after H]]. destruct before as [|c before]; [|discriminate].
      now exists after.
  - rewrite orb_true_iff, IH, (HasPrefix_iff (String b s)). split.
    + intros [[rest H] | [before [after H]]].
      * now exists "", rest.
      * exists (String b before), after. simpl. now rewrite H.
    + intros [[|c before] [after H]].
      * left. now exists after.
      * right. simpl in H. injection H as _ H. now exists before, after.
Qed.

Lemma substring_app_suffix (a suffix : string) :
  substring (String.length a) (String.length suffix) (a ++ suffix) = suffix.
Proof.
  induction a as [|c a IH]; simpl.
  - induction suffix as [|c suffix IH]; simpl; [reflexivity | now rewrite IH].
  - exact IH.
Qed.

Lemma substring_split (n : nat) (s : string) :
  (n <= String.length s)%nat ->
  s = substring 0 n s ++ substring n (String.length s - n) s.
Proof.
  revert s; induction n as [|n IH]; intros s Hn.
  - rewrite Nat.sub_0_r. simpl.
    assert (forall t, t = substring 0 (String.length t) t) as H.
    { induction t as [|c t IHt]; simpl; [reflexivity | now rewrite <- IHt]. }
    destruct s; simpl; [reflexivity | now rewrite <- H].
  - destruct s as [|c s]; simpl in *; [lia|].
    rewrite <- IH by lia. reflexivity.
Qed.

Lemma length_app (a b : string) :
  String.length (a ++ b) = (String.length a + String.length b)%nat.
Proof. induction a as [|c a IH]; simpl; [reflexivity | now rewrite IH]. Qed.

Lemma HasSuffix_iff (s suffix : string) :
  strings.HasSuffix s suffix = true <-> exists before, s = before ++ suffix.
Proof.
  unfold strings.HasSuffix. rewrite andb_true_iff, Nat.leb_le, String.eqb_eq. split.
  - intros [Hlen Hsub].
    exists (substring 0 (String.length s - String.length suffix) s).
    pose proof (substring_split (String.length s - String.length suffix) s) as H.
    replace (String.length s - (String.length s - String.length suffix))%nat
      with (String.length suffix) in H by lia.
    rewrite Hsub in H. apply H. lia.
  - intros [before ->]. rewrite length_app. split; [lia|].
    replace (String.length before + String.length suffix - String.length suffix)%nat
      with (String.length before) by lia.
    apply substring_app_suffix.
Qed.

(** ** Shapes of retry runs *)

Local Open Scope list_scope.

Lemma retryRun_last (r0 : error) (tr : list event) (r : error) :
  retryRun r0 tr r -> exists pre, Attempt r0 :: tr = pre ++ [Attempt r].
Proof.
  induction 1 as [r | e r' tr r He Hrun [pre IH]].
  - now exists [].
  - exists (Attempt (Some e) :: Sleep (100 * time.Millisecond) :: pre).
    simpl. now rewrite IH.
Qed.

(** Whatever follows a call in a run starts with the 100 ms sleep of the
    next round, and that call failed transiently; a call that nothing
    follows gave the result of the run. *)
Lemma retryRun_split (r0 : error) (tr : list event) (r : error) :
  retryRun r0 tr r ->
  forall pre r' post,
    Attempt r0 :: tr = pre ++ Attempt r' :: post ->
    (post = [] /\ r' = r) \/
    (exists e post',
        r' = Some e /\ retriable e = true /\
        post = Sleep (100 * time.Millisecond) :: post').
Proof.
  induction 1 as [r | e r1 tr r He Hrun IH]; intros pre r' post Heq.
  - destruct pre as [|x pre]; simpl in Heq.
    + injection Heq as -> <-. now left.
    + injection Heq as _ Heq. destruct pre; discriminate.
  - destruct pre as [|x pre]; simpl in Heq.
    + injection Heq as <- <-. right. eauto.
    + injection Heq as _ Heq. destruct pre as [|y pre]; simpl in Heq.
      * discriminate.
      * injection Heq as _ Heq. eauto.
Qed.

Lemma retryRun_sleeps (r0 : error) (tr : list event) (r : error) :
  retryRun r0 tr r ->
  sleeps tr = repeat (100 * time.Millisecond) (attempts tr).
Proof.
  induction 1 as [r | e r1 tr r He Hrun IH]; [reflexivity|].
  unfold attempts in *. simpl. now rewrite IH.
Qed.

Lemma permanent_not_transient (e : errorValue) :
  permanent (Some e) -> retriable e = true -> False.
Proof.
  intros [H | [e' [H He']]] He; [discriminate|].
  injection H as <-. congruence.
Qed.

(** ** The retry loop *)

Section RetryFacts.

Context {S : Type}.
Variable fn : @closure S.

Lemma invoke_eq (w : World S) :
  invoke fn w =
  (fst (fn (state w)),
   mkWorld (snd (fn (state w))) (trace w ++ [Attempt (fst (fn (state w)))])).
Proof.
  unfold invoke, bind, lift, emit, ret. now destruct (fn (state w)).
Qed.

Lemma retryLoop_stop (limit : Z) (fuel : nat) (i : Z) (err : error) (w : World S) :
  retryGuard limit i err = false -> retryLoop fn limit fuel i err w = (err, w).
Proof.
  intros Hg. destruct fuel; simpl; [reflexivity|]. now rewrite Hg.
Qed.

Lemma retryLoop_step (limit : Z) (fuel : nat) (i : Z) (err : error) (w : World S) :
  retryGuard limit i err = true ->
  retryLoop fn limit (Datatypes.S fuel) i err w =
  retryLoop fn limit fuel (i + 1) (fst (fn (state w)))
    (mkWorld (snd (fn (state w)))
       (trace w ++ [Sleep (100 * time.Millisecond); Attempt (fst (fn (state w)))])).
Proof.
  intros Hg. cbn [retryLoop]. rewrite Hg.
  unfold bind at 1. unfold timeSleep, emit at 1.
  unfold bind at 1. rewrite invoke_eq. cbn [state trace].
  now rewrite <- app_assoc.
Qed.

Lemma retryGuard_true (limit i : Z) (err : error) :
  retryGuard limit i err = true <->
  exists e, err = Some e /\ retriable e = true /\ i < limit.
Proof.
  unfold retryGuard. destruct err as [e|].
  - rewrite andb_true_iff, Z.ltb_lt. split.
    + intros [? ?]. now exists e.
    + intros [e' [H [? ?]]]. now injection H as <-.
  - split; [discriminate | intros [e [H _]]; discriminate].
Qed.

Lemma retryGuard_false (limit i : Z) (err : error) :
  retryGuard limit i err = false -> i < limit -> permanent err.
Proof.
  unfold retryGuard, permanent. destruct err as [e|]; [|now left].
  rewrite andb_false_iff, Z.ltb_ge. intros [H | H] Hi; [|lia].
  right. now exists e.
Qed.

(** The loop never needs more fuel than the guard allows rounds. *)
Lemma retryLoop_fuel (limit : Z) (fuel extra : nat) :
  forall (i : Z) (err : error) (w : World S),
    limit - i <= Z.of_nat fuel ->
    retryLoop fn limit (fuel + extra) i err w = retryLoop fn limit fuel i err w.
Proof.
  induction fuel as [|fuel IH]; intros i err w Hfuel.
  - rewrite !retryLoop_stop; [reflexivity | |];
      (destruct err as [e|]; simpl; [|reflexivity]);
      (replace (i <? limit) with false by (symmetry; apply Z.ltb_ge; lia));
      apply andb_false_r.
  - destruct (retryGuard limit i err) eqn:Hg.
    + change (Datatypes.S fuel + extra)%nat with (Datatypes.S (fuel + extra)).
      rewrite !retryLoop_step by assumption. apply IH. lia.
    + now rewrite !retryLoop_stop.
Qed.

Lemma retryLoop_run (limit : Z) (fuel : nat) :
  forall (i : Z) (err : error) (w : World S),
    Z.of_nat fuel <= limit - i ->
    exists tr,
      trace (snd (retryLoop fn limit fuel i err w)) = trace w ++ tr /\
      retryRun err tr (fst (retryLoop fn limit fuel i err w)) /\
      (attempts tr <= fuel)%nat /\
      (permanent (fst (retryLoop fn limit fuel i err w)) \/ attempts tr = fuel) /\
      (alwaysTransient fn ->
       (exists e, err = Some e /\ retriable e = true) ->
       attempts tr = fuel /\
       exists e, fst (retryLoop fn limit fuel i err w) = Some e /\
                 retriable e = true).
Proof.
  induction fuel as [|fuel IH]; intros i err w Hfuel.
  - exists []. simpl. rewrite app_nil_r.
    split; [reflexivity|]. split; [apply retryStop|].
    split; [apply Nat.le_refl|]. split; [now right|].
    intros _ H. now split.
  - destruct (retryGuard limit i err) eqn:Hg.
    + rewrite retryLoop_step by assumption.
      apply retryGuard_true in Hg as [e [-> [He Hi]]].
      set (r1 := fst (fn (state w))).
      set (w1 := mkWorld _ _).
      destruct (IH (i + 1) r1 w1) as [tr [Htr [Hrun [Hle [Hend Hall]]]]]; [lia|].
      exists (Sleep (100 * time.Millisecond) :: Attempt r1 :: tr).
      split; [|split; [|split; [|split]]].
      * rewrite Htr. unfold w1. cbn [trace]. now rewrite <- app_assoc.
      * now apply retryAgain.
      * unfold attempts in *. simpl. lia.
      * destruct Hend as [Hp | Hn]; [now left | right].
        unfold attempts in *. simpl. lia.
      * intros Hfn _. destruct (Hall Hfn (Hfn (state w))) as [Hn Hr].
        split; [|exact Hr]. unfold attempts in *. simpl. lia.
    + rewrite retryLoop_stop by assumption. exists []. cbn [fst snd].
      rewrite app_nil_r. split; [reflexivity|].
      split; [apply retryStop|]. split; [unfold attempts; simpl; lia|].
      split.
      * left. apply (retryGuard_false limit i); [assumption | lia].
      * intros _ [e [-> He]]. unfold retryGuard in Hg. rewrite He in Hg.
        simpl in Hg. apply Z.ltb_ge in Hg. lia.
Qed.

Lemma withRetry_eq (w : World S) :
  withRetry fn w =
  retryLoop fn (retryTimeout * 10) 100 0 (fst (fn (state w)))
    (mkWorld (snd (fn (state w))) (trace w ++ [Attempt (fst (fn (state w)))])).
Proof.
  unfold withRetry, bind. now rewrite invoke_eq.
Qed.

(** A run of [withRetry]: the trace grows by a first call of [fn] and by
    the rounds of the loop. *)
Lemma withRetry_run (w : World S) :
  exists r0 tr,
    r0 = fst (fn (state w)) /\
    trace (snd (withRetry fn w)) = trace w ++ Attempt r0 :: tr /\
    retryRun r0 tr (fst (withRetry fn w)) /\
    (attempts tr <= 100)%nat /\
    (permanent (fst (withRetry fn w)) \/ attempts tr = 100%nat) /\
    (alwaysTransient fn ->
     attempts tr = 100%nat /\
     exists e, fst (withRetry fn w) = Some e /\ retriable e = true).
Proof.
  rewrite withRetry_eq.
  set (r0 := fst (fn (state w))). set (w1 := mkWorld _ _).
  destruct (retryLoop_run (retryTimeout * 10) 100 0 r0 w1)
    as [tr [Htr [Hrun [Hle [Hend Hall]]]]]; [unfold retryTimeout; simpl; lia|].
  exists r0, tr. split; [reflexivity|].
  split; [|split; [|split; [|split]]]; auto.
  - rewrite Htr. unfold w1. cbn [trace]. now rewrite <- app_assoc.
  - intros Hfn. apply Hall; [assumption|]. apply Hfn.
Qed.

End RetryFacts.

Lemma sleeps_In (d : time.Duration) (tr : list event) :
  In (Sleep d) tr -> In d (sleeps tr).
Proof.
  induction tr as [|ev tr IH]; simpl; [tauto|].
  intros [-> | H]; [now left|].
  destruct ev; simpl; auto.
Qed.

(** ** The retry wrapper, call by call *)

Section CallFacts.

Context {St : Type}.
Variable fn : @closure St.

Lemma attempts_roundsOf (k : nat) :
  forall s, attempts (roundsOf fn k s) = k.
Proof.
  induction k as [|k IH]; intros s; [reflexivity|].
  unfold attempts in *. simpl. now rewrite IH.
Qed.

Lemma sleeps_roundsOf (k : nat) :
  forall s, sleeps (roundsOf fn k s) = repeat (100 * time.Millisecond) k.
Proof.
  induction k as [|k IH]; intros s; [reflexivity|].
  cbn [roundsOf sleeps repeat]. now rewrite IH.
Qed.

(** [k] rounds of the loop, each entered on a transient failure. *)
Lemma retryLoop_rounds (limit : Z) (k : nat) :
  forall (fuel : nat) (i : Z) (err : error) (w : World St),
    i + Z.of_nat k <= limit ->
    transient err ->
    (forall j, (S j < k)%nat -> transient (resultOf fn j (state w))) ->
    retryLoop fn limit (k + fuel) i err w =
    retryLoop fn limit fuel (i + Z.of_nat k)
      (match k with
       | O => err
       | S k' => resultOf fn k' (state w)
       end)
      (mkWorld (stateAfter fn k (state w)) (trace w ++ roundsOf fn k (state w))).
Proof.
  induction k as [|k IH]; intros fuel i err w Hi Herr Hcalls.
  - cbn [Nat.add stateAfter roundsOf]. rewrite Z.add_0_r, app_nil_r.
    now destruct w.
  - destruct Herr as [e [-> He]].
    change (S k + fuel)%nat with (S (k + fuel)).
    rewrite retryLoop_step
      by (unfold retryGuard; rewrite He; apply Z.ltb_lt; lia).
    destruct k as [|k].
    + cbn [Nat.add stateAfter roundsOf state trace]. unfold resultOf.
      cbn [stateAfter]. now replace (i + Z.of_nat 1) with (i + 1) by lia.
    + rewrite IH.
      * cbn [state trace]. unfold resultOf. cbn [stateAfter roundsOf].
        rewrite <- app_assoc. cbn [app].
        now replace (i + 1 + Z.of_nat (S k)) with (i + Z.of_nat (S (S k))) by lia.
      * lia.
      * apply (Hcalls O). lia.
      * intros j Hj. cbn [state]. apply (Hcalls (S j)). lia.
Qed.

Lemma withRetry_rounds (k : nat) (w : World St) :
  (k <= 100)%nat ->
  (forall j, (j < k)%nat -> transient (resultOf fn j (state w))) ->
  withRetry fn w =
  retryLoop fn (retryTimeout * 10) (100 - k) (Z.of_nat k)
    (resultOf fn k (state w))
    (mkWorld (stateAfter fn (S k) (state w))
       (trace w ++ Attempt (fst (fn (state w)))
                :: roundsOf fn k (snd (fn (state w))))).
Proof.
  intros Hk Hcalls. rewrite withRetry_eq.
  replace 100%nat with (k + (100 - k))%nat at 1 by lia.
  destruct k as [|k].
  - cbn [Nat.add roundsOf stateAfter]. reflexivity.
  - rewrite retryLoop_rounds.
    + cbn [state trace stateAfter]. rewrite <- app_assoc. reflexivity.
    + unfold retryTimeout. lia.
    + apply (Hcalls O). lia.
    + intros j Hj. cbn [state]. apply (Hcalls (S j)). lia.
Qed.

End CallFacts.

Lemma retryGuard_permanent (limit i : Z) (r : error) :
  permanent r -> retryGuard limit i r = false.
Proof.
  intros Hr. destruct r as [e|]; [|reflexivity].
  unfold retryGuard. destruct (retriable e) eqn:He; [|reflexivity].
  destruct (permanent_not_transient e Hr He).
Qed.

Lemma standbyFor_stateAfter (k j : nat) :
  forall s, stateAfter (standbyFor k) j s = (j + s)%nat.
Proof.
  induction j as [|j IH]; intros s; [reflexivity|].
  cbn [stateAfter]. rewrite IH. cbn [standbyFor snd]. lia.
Qed.

Lemma standbyFor_transient (k j : nat) :
  (j < k)%nat -> transient (resultOf (standbyFor k) j O).
Proof.
  intros Hj. unfold resultOf. rewrite standbyFor_stateAfter, Nat.add_0_r.
  unfold standbyFor. cbn [fst].
  replace (j <? k)%nat with true by (symmetry; apply Nat.ltb_lt; lia).
  exists memfs.errStandby. split; reflexivity.
Qed.

Lemma standbyFor_permanent (k : nat) :
  permanent (resultOf (standbyFor k) k O).
Proof.
  unfold resultOf. rewrite standbyFor_stateAfter, Nat.add_0_r.
  unfold standbyFor. cbn [fst]. rewrite Nat.ltb_irrefl. now left.
Qed.

Lemma transient_or_permanent (r : error) : transient r \/ permanent r.
Proof.
  destruct r as [e|]; [|right; now left].
  destruct (retriable e) eqn:He.
  - left. now exists e.
  - right. right. now exists e.
Qed.

Section BudgetFacts.

Context {St : Type}.
Variable fn : @closure St.

Lemma callsTrace_attempts (k : nat) (s : St) :
  attempts (callsTrace fn k s) = S k.
Proof.
  unfold callsTrace.
  change (attempts (Attempt (fst (fn s)) :: roundsOf fn k (snd (fn s))))
    with (S (attempts (roundsOf fn k (snd (fn s))))).
  now rewrite attempts_roundsOf.
Qed.

Lemma callsTrace_sleeps (k : nat) (s : St) :
  sleeps (callsTrace fn k s) = repeat (100 * time.Millisecond) k.
Proof. unfold callsTrace. cbn [sleeps]. apply sleeps_roundsOf. Qed.

(** Among the first [N + 1] calls, the first one that does not fail
    transiently, if there is one. *)
Lemma first_permanent (s : St) (N : nat) :
  exists n,
    (n <= N)%nat /\ failsFirst fn n s /\
    (n = N \/ permanent (resultOf fn n s)).
Proof.
  induction N as [|N [n [Hn [Hfirst Hend]]]].
  - exists O. split; [apply Nat.le_refl|]. split; [|now left].
    intros j Hj. lia.
  - destruct Hend as [-> | Hperm].
    + destruct (transient_or_permanent (resultOf fn N s)) as [Ht | Hp].
      * exists (S N). split; [apply Nat.le_refl|]. split; [|now left].
        intros j Hj. destruct (Nat.eq_dec j N) as [-> | Hne]; [exact Ht|].
        apply Hfirst. lia.
      * exists N. split; [lia|]. split; [exact Hfirst | now right].
    + exists n. split; [lia|]. split; [exact Hfirst | now right].
Qed.

(** The wrapper with the loop bound [L], after [k] transient failures. *)
Lemma retryAt_rounds (L : Z) (k : nat) (w : World St) :
  Z.of_nat k <= L ->
  failsFirst fn k (state w) ->
  (err <- invoke fn ;; retryLoop fn L (Z.to_nat L) 0 err) w =
  retryLoop fn L (Z.to_nat L - k) (Z.of_nat k) (resultOf fn k (state w))
    (snd (afterCalls fn k w)).
Proof.
  intros Hk Hcalls. unfold bind. rewrite invoke_eq.
  replace (Z.to_nat L) with (k + (Z.to_nat L - k))%nat at 1 by lia.
  destruct k as [|k].
  - reflexivity.
  - rewrite retryLoop_rounds.
    + cbn [state trace stateAfter]. unfold afterCalls, callsTrace. cbn [snd].
      rewrite <- app_assoc. reflexivity.
    + lia.
    + apply (Hcalls O). lia.
    + intros j Hj. cbn [state]. apply (Hcalls (S j)). lia.
Qed.

Lemma retryAt_afterCalls (L : Z) (k : nat) (w : World St) :
  Z.of_nat k <= L ->
  failsFirst fn k (state w) ->
  Z.of_nat k = L \/ permanent (resultOf fn k (state w)) ->
  (err <- invoke fn ;; retryLoop fn L (Z.to_nat L) 0 err) w = afterCalls fn k w.
Proof.
  intros Hk Hcalls Hend. rewrite (retryAt_rounds L k w Hk Hcalls).
  destruct Hend as [HL | Hperm].
  - replace (Z.to_nat L - k)%nat with O by lia. reflexivity.
  - rewrite retryLoop_stop by now apply retryGuard_permanent. reflexivity.
Qed.

Lemma retryAt_calls (L : Z) (w : World St) :
  0 <= L ->
  exists n,
    Z.of_nat n <= L /\
    failsFirst fn n (state w) /\
    (Z.of_nat n = L \/ permanent (resultOf fn n (state w))) /\
    (err <- invoke fn ;; retryLoop fn L (Z.to_nat L) 0 err) w = afterCalls fn n w.
Proof.
  intros HL.
  destruct (first_permanent (state w) (Z.to_nat L)) as [n [Hn [Hfirst Hend]]].
  assert (Z.of_nat n = L \/ permanent (resultOf fn n (state w))) as Hend'
    by (destruct Hend; [left; lia | now right]).
  exists n. split; [lia|]. split; [exact Hfirst|]. split; [exact Hend'|].
  apply retryAt_afterCalls; [lia | exact Hfirst | exact Hend'].
Qed.

Lemma withRetry_afterCalls (k : nat) (w : World St) :
  (k <= 100)%nat ->
  failsFirst fn k (state w) ->
  k = 100%nat \/ permanent (resultOf fn k (state w)) ->
  withRetry fn w = afterCalls fn k w.
Proof.
  intros Hk Hcalls Hend.
  apply (retryAt_afterCalls (retryTimeout * 10) k w);
    [unfold retryTimeout; lia | exact Hcalls |].
  destruct Hend; [left; unfold retryTimeout; lia | now right].
Qed.

Lemma withRetry_calls (w : World St) :
  exists n,
    (n <= 100)%nat /\
    failsFirst fn n (state w) /\
    (n = 100%nat \/ permanent (resultOf fn n (state w))) /\
    withRetry fn w = afterCalls fn n w.
Proof.
  destruct (retryAt_calls (retryTimeout * 10) w) as [n [Hn [Hfirst [Hend Heq]]]];
    [unfold retryTimeout; lia|].
  unfold retryTimeout in Hn, Hend.
  exists n. split; [lia|]. split; [exact Hfirst|]. split; [|exact Heq].
  destruct Hend; [left; lia | now right].
Qed.

End BudgetFacts.

(** ** The retry wrapper: claims *)

(** C3.  Whatever [fn] does, [withRetry] is a number of calls of [fn] in
    sequence, with a sleep of 100 ms before each call but the first: the
    result is that of the last call, the state is the one the calls leave,
    and at most 100 calls follow the first, so at most budget/interval + 1
    calls in all for the budget of [retryTimeout] = 10 seconds.  Every
    call but the last failed transiently, and the last one did not, unless
    it is call number 101.  When [fn] fails transiently on each of its 101
    calls, all of them are made, 100 sleeps of 100 ms separate them (the
    10 seconds of the budget in all), and the failure of the last call is
    returned.  When a call returns nil after transient failures only, nil
    is returned and no further call is made. *)
Theorem withRetry_transient_budget :
  forall (St : Type) (fn : @closure St) (w : World St),
    (exists n,
        (n <= 100)%nat /\
        failsFirst fn n (state w) /\
        (n = 100%nat \/ permanent (resultOf fn n (state w))) /\
        withRetry fn w = afterCalls fn n w /\
        attempts (callsTrace fn n (state w)) = S n /\
        sleeps (callsTrace fn n (state w)) = repeat (100 * time.Millisecond) n /\
        Z.of_nat (attempts (callsTrace fn n (state w))) <=
          (retryTimeout * 1000 * time.Millisecond) / (100 * time.Millisecond) + 1) /\
    (failsFirst fn 101 (state w) ->
     withRetry fn w = afterCalls fn 100 w /\
     transient (fst (withRetry fn w)) /\
     attempts (callsTrace fn 100 (state w)) = 101%nat /\
     sleeps (callsTrace fn 100 (state w)) = repeat (100 * time.Millisecond) 100 /\
     fold_right Z.add 0 (sleeps (callsTrace fn 100 (state w))) =
       retryTimeout * 1000 * time.Millisecond) /\
    (forall k,
        (k <= 100)%nat ->
        failsFirst fn k (state w) ->
        resultOf fn k (state w) = None ->
        withRetry fn w = afterCalls fn k w /\ fst (withRetry fn w) = None).
Proof.
  intros St fn w. split; [|split].
  - destruct (withRetry_calls fn w) as [n [Hn [Hfirst [Hend Heq]]]].
    exists n. split; [exact Hn|]. split; [exact Hfirst|]. split; [exact Hend|].
    split; [exact Heq|]. split; [apply callsTrace_attempts|].
    split; [apply callsTrace_sleeps|].
    rewrite callsTrace_attempts.
    change ((retryTimeout * 1000 * time.Millisecond) / (100 * time.Millisecond))
      with 100.
    lia.
  - intros Hall.
    assert (withRetry fn w = afterCalls fn 100 w) as Heq.
    { apply withRetry_afterCalls; [apply Nat.le_refl | | now left].
      intros j Hj. apply Hall. lia. }
    split; [exact Heq|]. split.
    { rewrite Heq. apply (Hall 100%nat). lia. }
    split; [apply callsTrace_attempts|].
    split; [apply callsTrace_sleeps|].
    rewrite callsTrace_sleeps. reflexivity.
  - intros k Hk Hfirst Hnil.
    assert (withRetry fn w = afterCalls fn k w) as Heq.
    { apply withRetry_afterCalls; [exact Hk | exact Hfirst |].
      right. left. exact Hnil. }
    split; [exact Heq|]. rewrite Heq. exact Hnil.
Qed.

(** The name node refuses 101 calls and would serve call 102. *)
Lemma withRetry_transient_budget_witness :
  failsFirst (standbyFor 101) 101 O /\
  fst (withRetry (standbyFor 101) (mkWorld O [])) = Some memfs.errStandby /\
  state (snd (withRetry (standbyFor 101) (mkWorld O []))) = 101%nat /\
  fst (standbyFor 101 101%nat) = None.
Proof.
  assert (failsFirst (standbyFor 101) 101 O) as Hall
    by (intros j Hj; now apply standbyFor_transient).
  split; [exact Hall|].
  destruct (proj1 (proj2 (withRetry_transient_budget nat (standbyFor 101) (mkWorld O []))) Hall)
    as [Heq _].
  rewrite Heq. unfold afterCalls. cbn [fst snd state].
  split; [|split; [|reflexivity]].
  - unfold resultOf. rewrite standbyFor_stateAfter. reflexivity.
  - apply standbyFor_stateAfter.
Defined.

(** Two standby errors, then success: two sleeps, three calls, nil. *)
Example withRetry_succeeds_after_standby :
  withRetry doubles.standbyThenOk (mkWorld 0%nat []) =
  (None,
   mkWorld 3%nat
     [Attempt (Some memfs.errStandby); Sleep (100 * time.Millisecond);
      Attempt (Some memfs.errStandby); Sleep (100 * time.Millisecond);
      Attempt None]).
Proof. vm_compute. reflexivity. Qed.

(** C4.  An error is classified transient exactly when its text contains
    one of the two markers (standby state, retry requested by the
    cluster); when the first call of [fn] fails with an error that is not
    transient, [withRetry] returns that error after this single call: the
    trace grows by the call alone, with no sleep. *)
Theorem retriable_iff_marker_else_immediate :
  (forall e : errorValue,
      retriable e = true <->
      (exists before after,
          Error e = (before ++ StandbyException ++ after)%string) \/
      (exists before after,
          Error e = (before ++ RetriableException ++ after)%string)) /\
  (forall (S : Type) (fn : @closure S) (w : World S) (e : errorValue) (s' : S),
      fn (state w) = (Some e, s') ->
      retriable e = false ->
      withRetry fn w = (Some e, mkWorld s' (trace w ++ [Attempt (Some e)]))).
Proof.
  split.
  - intros e. unfold retriable.
    now rewrite orb_true_iff, !Contains_iff.
  - intros S fn w e s' Hfn He.
    rewrite withRetry_eq, Hfn. cbn [fst snd].
    apply retryLoop_stop. unfold retryGuard. now rewrite He.
Qed.

Lemma retriable_iff_marker_else_immediate_witness :
  doubles.denied 0%nat = (Some doubles.errPermission, 1%nat) /\
  retriable doubles.errPermission = false /\
  withRetry doubles.denied (mkWorld 0%nat []) =
  (Some doubles.errPermission, mkWorld 1%nat [Attempt (Some doubles.errPermission)]).
Proof.
  split; [reflexivity|]. split; [reflexivity|].
  apply (proj2 retriable_iff_marker_else_immediate
           nat doubles.denied (mkWorld 0%nat []) doubles.errPermission 1%nat);
    reflexivity.
Defined.

(** C10.  The loop of [withRetry] classifies the result of every call
    afresh: entered with nil or with an error that is not transient it
    returns at once, whatever the counter.  So when a call of [fn], after
    transient failures only and within the budget, fails with an error
    that is not transient, [withRetry] returns that error: no call and no
    sleep follows, though the budget is not used up; and when such a call
    returns nil, [withRetry] returns nil.  Every run ends at the first
    call that does not fail transiently, or at call number 101. *)
Theorem withRetry_reclassifies :
  forall (St : Type) (fn : @closure St) (w : World St),
    (forall limit fuel i r w',
        permanent r -> retryLoop fn limit fuel i r w' = (r, w')) /\
    (forall k e,
        (k <= 100)%nat ->
        failsFirst fn k (state w) ->
        resultOf fn k (state w) = Some e ->
        retriable e = false ->
        withRetry fn w = afterCalls fn k w /\
        fst (withRetry fn w) = Some e /\
        attempts (callsTrace fn k (state w)) = S k /\
        sleeps (callsTrace fn k (state w)) = repeat (100 * time.Millisecond) k) /\
    (forall k,
        (k <= 100)%nat ->
        failsFirst fn k (state w) ->
        resultOf fn k (state w) = None ->
        withRetry fn w = afterCalls fn k w /\
        fst (withRetry fn w) = None) /\
    (exists n,
        (n <= 100)%nat /\
        failsFirst fn n (state w) /\
        (n = 100%nat \/ permanent (resultOf fn n (state w))) /\
        withRetry fn w = afterCalls fn n w).
Proof.
  intros St fn w. split; [|split; [|split]].
  - intros limit fuel i r w' Hr. apply retryLoop_stop.
    now apply retryGuard_permanent.
  - intros k e Hk Hfirst Hres He.
    assert (withRetry fn w = afterCalls fn k w) as Heq.
    { apply withRetry_afterCalls; [exact Hk | exact Hfirst |].
      right. right. now exists e. }
    split; [exact Heq|]. split; [rewrite Heq; exact Hres|].
    split; [apply callsTrace_attempts | apply callsTrace_sleeps].
  - intros k Hk Hfirst Hnil.
    assert (withRetry fn w = afterCalls fn k w) as Heq.
    { apply withRetry_afterCalls; [exact Hk | exact Hfirst |].
      right. left. exact Hnil. }
    split; [exact Heq|]. rewrite Heq. exact Hnil.
  - apply withRetry_calls.
Qed.

(** Two standby errors, then a permission error: returned after the third
    call, with 98 rounds of the budget left. *)
Lemma withRetry_reclassifies_witness :
  failsFirst doubles.standbyThenDenied 2 O /\
  resultOf doubles.standbyThenDenied 2 O = Some doubles.errPermission /\
  retriable doubles.errPermission = false /\
  withRetry doubles.standbyThenDenied (mkWorld O []) =
  (Some doubles.errPermission,
   mkWorld 3%nat
     [Attempt (Some memfs.errStandby); Sleep (100 * time.Millisecond);
      Attempt (Some memfs.errStandby); Sleep (100 * time.Millisecond);
      Attempt (Some doubles.errPermission)]).
Proof.
  assert (failsFirst doubles.standbyThenDenied 2 O) as Hfirst.
  { intros j Hj. destruct j as [|[|j]]; [| |lia];
      exists memfs.errStandby; split; reflexivity. }
  assert (2 <= 100)%nat as Hk by lia.
  split; [exact Hfirst|]. split; [reflexivity|]. split; [reflexivity|].
  apply (proj1 (proj1 (proj2 (withRetry_reclassifies nat doubles.standbyThenDenied
                                (mkWorld O [])))
                  2%nat doubles.errPermission Hk Hfirst eq_refl eq_refl)).
Defined.

(** ** The adapter *)

Section AdapterFacts.

Context {C R W : Type}.
Variable p : hdfsClient C R W.

Lemma callOpen_eq {H : Type} (op : clientOp) (f : C -> (H + errorValue) * C)
  (w : World C) :
  callOpen op f w =
  (fst (f (state w)),
   mkWorld (snd (f (state w)))
     (trace w ++ [ClientCall op (errorOf (fst (f (state w))))])).
Proof.
  unfold callOpen, bind, lift, emit, ret. now destruct (f (state w)).
Qed.

Lemma callErr_eq {A : Type} (op : clientOp) (f : C -> (A * error) * C)
  (w : World C) :
  callErr op f w =
  (fst (f (state w)),
   mkWorld (snd (f (state w)))
     (trace w ++ [ClientCall op (snd (fst (f (state w))))])).
Proof.
  unfold callErr, bind, lift, emit, ret. now destruct (f (state w)).
Qed.

Lemma OpenRead_open_fails (name : string) (offset : Z) (w : World C)
  (e : errorValue) (c1 : C) :
  hdfs.Open (Client p) name (state w) = (inr e, c1) ->
  OpenRead p name offset w =
  ((None, Some e), mkWorld c1 (trace w ++ [ClientCall (opOpen name) (Some e)])).
Proof.
  intros Hopen. unfold OpenRead, bind. rewrite callOpen_eq, Hopen. reflexivity.
Qed.

Lemma OpenRead_seek_fails (name : string) (offset : Z) (w : World C)
  (f : R) (c1 c2 : C) (n : Z) (e : errorValue) :
  hdfs.Open (Client p) name (state w) = (inl f, c1) ->
  hdfs.Seek (Client p) f offset os.SEEK_SET c1 = ((n, Some e), c2) ->
  OpenRead p name offset w =
  ((None, Some e),
   mkWorld c2
     (trace w ++ [ClientCall (opOpen name) None;
                  ClientCall (opSeek offset os.SEEK_SET) (Some e)])).
Proof.
  intros Hopen Hseek. unfold OpenRead, bind.
  rewrite callOpen_eq, Hopen. cbn [fst snd].
  rewrite callErr_eq. cbn [state trace]. rewrite Hseek. cbn [fst snd errorOf].
  unfold ret. now rewrite <- app_assoc.
Qed.

Lemma OpenRead_ok (name : string) (offset : Z) (w : World C)
  (f : R) (c1 c2 : C) (n : Z) :
  hdfs.Open (Client p) name (state w) = (inl f, c1) ->
  hdfs.Seek (Client p) f offset os.SEEK_SET c1 = ((n, None), c2) ->
  OpenRead p name offset w =
  ((Some f, None),
   mkWorld c2
     (trace w ++ [ClientCall (opOpen name) None;
                  ClientCall (opSeek offset os.SEEK_SET) None])).
Proof.
  intros Hopen Hseek. unfold OpenRead, bind.
  rewrite callOpen_eq, Hopen. cbn [fst snd].
  rewrite callErr_eq. cbn [state trace]. rewrite Hseek. cbn [fst snd errorOf].
  unfold ret. now rewrite <- app_assoc.
Qed.

Lemma OpenWrite_append_ok (name : string) (w : World C) (f : W) (c1 : C) :
  hdfs.Append (Client p) name (state w) = (inl f, c1) ->
  OpenWrite p name w =
  ((Some f, None, None),
   mkWorld c1 (trace w ++ [ClientCall (opAppend name) None])).
Proof.
  intros Happ. unfold OpenWrite, bind. rewrite callOpen_eq, Happ. reflexivity.
Qed.

Lemma OpenWrite_append_fails (name : string) (w : World C) (e : errorValue)
  (c1 c2 : C) (r : W + errorValue) :
  hdfs.Append (Client p) name (state w) = (inr e, c1) ->
  hdfs.Create (Client p) name c1 = (r, c2) ->
  OpenWrite p name w =
  ((handleOf r, None, errorOf r),
   mkWorld c2
     (trace w ++ [ClientCall (opAppend name) (Some e);
                  ClientCall (opCreate name) (errorOf r)])).
Proof.
  intros Happ Hcre. unfold OpenWrite, bind.
  rewrite callOpen_eq, Happ. cbn [fst snd errorOf].
  rewrite callOpen_eq. cbn [state trace]. rewrite Hcre. cbn [fst snd].
  unfold ret. now rewrite <- app_assoc.
Qed.

End AdapterFacts.

(** ** The in-memory cluster *)

Lemma setPos_nth (rs : list memfs.reader) :
  forall (h : nat) (r : memfs.reader) (pos : Z),
    nth_error rs h = Some r ->
    nth_error (memfs.setPos h pos rs) h = Some (memfs.mkReader (memfs.rpath r) pos).
Proof.
  induction rs as [|r0 rs IH]; intros h r pos Hnth.
  - destruct h; discriminate.
  - destruct h as [|h]; simpl in *.
    + now injection Hnth as ->.
    + now apply IH.
Qed.

Lemma nth_error_snoc {A : Type} (l : list A) (a : A) :
  nth_error (l ++ [a]) (List.length l) = Some a.
Proof.
  rewrite nth_error_app2 by apply Nat.le_refl. now rewrite Nat.sub_diag.
Qed.

Lemma memfs_Open_missing (c : memfs.cluster) (name : string) :
  memfs.lookup name (memfs.files c) = None ->
  exists e c', memfs.Open name c = (inr e, c').
Proof.
  intros Hl. unfold memfs.Open, memfs.rpc. destruct (memfs.standby c).
  - rewrite Hl. eauto.
  - eauto.
Qed.

Lemma memfs_Open_found (c : memfs.cluster) (name : string) (bs : list Byte.byte) :
  memfs.standby c = O ->
  memfs.lookup name (memfs.files c) = Some bs ->
  memfs.Open name c =
  (inl (List.length (memfs.readers c)),
   memfs.mkCluster (memfs.files c) (memfs.dirs c)
     (memfs.readers c ++ [memfs.mkReader name 0]) (memfs.standby c)).
Proof.
  intros Hs Hl. unfold memfs.Open, memfs.rpc. now rewrite Hs, Hl.
Qed.

Lemma memfs_Seek_set (fs : list (string * list Byte.byte)) (ds : list string)
  (rs : list memfs.reader) (n : nat) (name : string) (bs : list Byte.byte)
  (offset : Z) :
  memfs.lookup name fs = Some bs ->
  memfs.Seek (List.length rs) offset os.SEEK_SET
    (memfs.mkCluster fs ds (rs ++ [memfs.mkReader name 0]) n) =
  if (offset <? 0) || (Z.of_nat (List.length bs) <? offset)
  then ((0, Some memfs.errOffset),
        memfs.mkCluster fs ds (rs ++ [memfs.mkReader name 0]) n)
  else ((offset, None),
        memfs.mkCluster fs ds
          (memfs.setPos (List.length rs) offset (rs ++ [memfs.mkReader name 0])) n).
Proof.
  intros Hl. unfold memfs.Seek. cbn [memfs.readers memfs.files memfs.dirs memfs.standby].
  rewrite nth_error_snoc. cbn [memfs.rpath memfs.rpos].
  change (os.SEEK_SET =? 0) with true. cbv iota.
  unfold memfs.size. cbn [memfs.files]. rewrite Hl. reflexivity.
Qed.

Lemma memfs_ReadByte_at (fs : list (string * list Byte.byte)) (ds : list string)
  (rs : list memfs.reader) (n : nat) (name : string) (bs : list Byte.byte)
  (offset : Z) :
  memfs.lookup name fs = Some bs ->
  fst (memfs.ReadByte (List.length rs)
         (memfs.mkCluster fs ds
            (memfs.setPos (List.length rs) offset (rs ++ [memfs.mkReader name 0])) n)) =
  nth_error bs (Z.to_nat offset).
Proof.
  intros Hl. unfold memfs.ReadByte. cbn [memfs.readers memfs.files].
  rewrite (setPos_nth _ _ _ offset (nth_error_snoc rs (memfs.mkReader name 0))).
  cbn [memfs.rpath memfs.rpos]. rewrite Hl.
  now destruct (nth_error bs (Z.to_nat offset)).
Qed.

(** ** The adapter: claims *)

(** C6.  [OpenRead] calls [Open] and then [Seek(offset, SEEK_SET)] on the
    reader it got.  With any client: an error of [Open] is returned as it
    is, with no stream; so is an error of [Seek]; otherwise the reader is
    returned, in the state that the seek left.  On the in-memory cluster:
    a missing file gives an error and no stream, so does an offset beyond
    the length of the file, and for an offset within the file the first
    byte read from the returned stream is the byte of the file at that
    offset (none at the very end of the file). *)
Theorem OpenRead_seeks_to_offset :
  (forall (C R W : Type) (p : hdfsClient C R W) (name : string) (offset : Z)
          (w : World C),
      (forall e c1,
          hdfs.Open (Client p) name (state w) = (inr e, c1) ->
          OpenRead p name offset w =
          ((None, Some e),
           mkWorld c1 (trace w ++ [ClientCall (opOpen name) (Some e)]))) /\
      (forall f c1,
          hdfs.Open (Client p) name (state w) = (inl f, c1) ->
          (forall n e c2,
              hdfs.Seek (Client p) f offset os.SEEK_SET c1 = ((n, Some e), c2) ->
              OpenRead p name offset w =
              ((None, Some e),
               mkWorld c2
                 (trace w ++ [ClientCall (opOpen name) None;
                              ClientCall (opSeek offset os.SEEK_SET) (Some e)]))) /\
          (forall n c2,
              hdfs.Seek (Client p) f offset os.SEEK_SET c1 = ((n, None), c2) ->
              OpenRead p name offset w =
              ((Some f, None),
               mkWorld c2
                 (trace w ++ [ClientCall (opOpen name) None;
                              ClientCall (opSeek offset os.SEEK_SET) None]))))) /\
  (forall (w : World memfs.cluster) (name : string) (offset : Z),
      (memfs.lookup name (memfs.files (state w)) = None ->
       exists e, fst (OpenRead memfs.adapter name offset w) = (None, Some e)) /\
      (forall bs,
          memfs.standby (state w) = O ->
          memfs.lookup name (memfs.files (state w)) = Some bs ->
          (Z.of_nat (List.length bs) < offset ->
           exists e, fst (OpenRead memfs.adapter name offset w) = (None, Some e)) /\
          (0 <= offset <= Z.of_nat (List.length bs) ->
           exists h,
             fst (OpenRead memfs.adapter name offset w) = (Some h, None) /\
             fst (memfs.ReadByte h (state (snd (OpenRead memfs.adapter name offset w)))) =
             nth_error bs (Z.to_nat offset)))).
Proof.
  split.
  - intros C R W p name offset w. split.
    + intros e c1. apply OpenRead_open_fails.
    + intros f c1 Hopen. split.
      * intros n e c2. now apply OpenRead_seek_fails.
      * intros n c2. now apply OpenRead_ok.
  - intros w name offset. split.
    + intros Hl. destruct (memfs_Open_missing _ _ Hl) as [e [c' Hopen]].
      exists e. now rewrite (OpenRead_open_fails memfs.adapter name offset w e c').
    + intros bs Hs Hl.
      pose proof (memfs_Open_found _ _ _ Hs Hl) as Hopen.
      pose proof (memfs_Seek_set (memfs.files (state w)) (memfs.dirs (state w))
                    (memfs.readers (state w)) (memfs.standby (state w))
                    name bs offset Hl) as Hseek.
      split.
      * intros Hoff.
        replace ((offset <? 0) || (Z.of_nat (List.length bs) <? offset))
          with true in Hseek
          by (symmetry; apply orb_true_iff; right; apply Z.ltb_lt; lia).
        exists memfs.errOffset.
        now rewrite (OpenRead_seek_fails memfs.adapter name offset w _ _ _ _ _
                       Hopen Hseek).
      * intros Hoff.
        replace ((offset <? 0) || (Z.of_nat (List.length bs) <? offset))
          with false in Hseek
          by (symmetry; apply orb_false_iff; split; apply Z.ltb_ge; lia).
        exists (List.length (memfs.readers (state w))).
        rewrite (OpenRead_ok memfs.adapter name offset w _ _ _ _ Hopen Hseek).
        cbn [fst snd state]. split; [reflexivity|].
        now apply memfs_ReadByte_at.
Qed.

Lemma OpenRead_seeks_to_offset_witness :
  memfs.standby (memfs.mkCluster [("T/1", [Byte.x68; Byte.x69; Byte.x21])] [] [] 0) = O /\
  memfs.lookup "T/1" [("T/1", [Byte.x68; Byte.x69; Byte.x21])] =
  Some [Byte.x68; Byte.x69; Byte.x21] /\
  0 <= 1 <= Z.of_nat (List.length [Byte.x68; Byte.x69; Byte.x21]) /\
  exists h,
    fst (OpenRead memfs.adapter "T/1" 1
           (mkWorld (memfs.mkCluster [("T/1", [Byte.x68; Byte.x69; Byte.x21])] [] [] 0) [])) =
    (Some h, None) /\
    fst (memfs.ReadByte h
           (state (snd (OpenRead memfs.adapter "T/1" 1
              (mkWorld (memfs.mkCluster [("T/1", [Byte.x68; Byte.x69; Byte.x21])] [] [] 0)
                 []))))) =
    Some Byte.x69.
Proof.
  split; [reflexivity|]. split; [reflexivity|]. split; [simpl; lia|].
  apply (proj2 (proj2 OpenRead_seeks_to_offset
                  (mkWorld (memfs.mkCluster [("T/1", [Byte.x68; Byte.x69; Byte.x21])] [] [] 0) [])
                  "T/1" 1)
           [Byte.x68; Byte.x69; Byte.x21] eq_refl eq_refl).
  simpl; lia.
Defined.

(** C5.  [OpenWrite] starts with the call of [Append]; it calls [Create]
    exactly when that call failed, and makes no other call of the client
    (in particular no existence check).  So either [Append] succeeded and
    [Create] was not called, or [Append] failed and the result is that of
    [Create]: never do both succeed.  The seeker returned is nil in every
    case. *)
Theorem OpenWrite_append_then_create :
  forall (C R W : Type) (p : hdfsClient C R W) (name : string) (w : World C),
    snd (fst (fst (OpenWrite p name w))) = None /\
    ((exists f c1,
         hdfs.Append (Client p) name (state w) = (inl f, c1) /\
         OpenWrite p name w =
         ((Some f, None, None),
          mkWorld c1 (trace w ++ [ClientCall (opAppend name) None]))) \/
     (exists e c1 r c2,
         hdfs.Append (Client p) name (state w) = (inr e, c1) /\
         hdfs.Create (Client p) name c1 = (r, c2) /\
         OpenWrite p name w =
         ((handleOf r, None, errorOf r),
          mkWorld c2
            (trace w ++ [ClientCall (opAppend name) (Some e);
                         ClientCall (opCreate name) (errorOf r)])))).
Proof.
  intros C R W p name w.
  destruct (hdfs.Append (Client p) name (state w)) as [[f | e] c1] eqn:Happ.
  - rewrite (OpenWrite_append_ok p name w f c1 Happ). split; [reflexivity|].
    left. now exists f, c1.
  - destruct (hdfs.Create (Client p) name c1) as [r c2] eqn:Hcre.
    rewrite (OpenWrite_append_fails p name w e c1 c2 r Happ Hcre).
    split; [reflexivity|]. right. now exists e, c1, r, c2.
Qed.

(** C9.  Whatever the error of [Append] is, [OpenWrite] goes on to call
    [Create]: when [Create] succeeds its stream is returned with a nil
    error, and when [Create] fails its error is returned; the error of
    [Append] is part of neither result. *)
Theorem OpenWrite_create_after_any_append_error :
  forall (C R W : Type) (p : hdfsClient C R W) (name : string) (w : World C)
         (e : errorValue) (c1 : C),
    hdfs.Append (Client p) name (state w) = (inr e, c1) ->
    (forall f c2,
        hdfs.Create (Client p) name c1 = (inl f, c2) ->
        OpenWrite p name w =
        ((Some f, None, None),
         mkWorld c2
           (trace w ++ [ClientCall (opAppend name) (Some e);
                        ClientCall (opCreate name) None]))) /\
    (forall e2 c2,
        hdfs.Create (Client p) name c1 = (inr e2, c2) ->
        OpenWrite p name w =
        ((None, None, Some e2),
         mkWorld c2
           (trace w ++ [ClientCall (opAppend name) (Some e);
                        ClientCall (opCreate name) (Some e2)]))).
Proof.
  intros C R W p name w e c1 Happ. split.
  - intros f c2 Hcre. now rewrite (OpenWrite_append_fails p name w e c1 c2 _ Happ Hcre).
  - intros e2 c2 Hcre. now rewrite (OpenWrite_append_fails p name w e c1 c2 _ Happ Hcre).
Qed.

(** An existing file on a cluster whose name node refuses one call: the
    standby error of [Append] is replaced by the error of [Create]. *)
Lemma OpenWrite_create_after_any_append_error_witness :
  memfs.Append "T/1" (memfs.mkCluster [("T/1", [])] [] [] 1) =
  (inr memfs.errStandby, memfs.mkCluster [("T/1", [])] [] [] 0) /\
  memfs.Create "T/1" (memfs.mkCluster [("T/1", [])] [] [] 0) =
  (inr memfs.errExist, memfs.mkCluster [("T/1", [])] [] [] 0) /\
  OpenWrite memfs.adapter "T/1" (mkWorld (memfs.mkCluster [("T/1", [])] [] [] 1) []) =
  ((None, None, Some memfs.errExist),
   mkWorld (memfs.mkCluster [("T/1", [])] [] [] 0)
     [ClientCall (opAppend "T/1") (Some memfs.errStandby);
      ClientCall (opCreate "T/1") (Some memfs.errExist)]).
Proof.
  split; [reflexivity|]. split; [reflexivity|].
  apply (proj2 (OpenWrite_create_after_any_append_error
                  memfs.cluster nat string memfs.adapter "T/1"
                  (mkWorld (memfs.mkCluster [("T/1", [])] [] [] 1) [])
                  memfs.errStandby (memfs.mkCluster [("T/1", [])] [] [] 0)
                  eq_refl)
           memfs.errExist (memfs.mkCluster [("T/1", [])] [] [] 0) eq_refl).
Defined.

Lemma withRetry_retried {S : Type} (fn : @closure S) : retried fn (withRetry fn).
Proof.
  intros w. split; [reflexivity|].
  destruct (withRetry_run fn w) as [r0 [tr [-> [Htr [Hrun _]]]]].
  now exists tr.
Qed.

(** C8.  [MkdirAll], [Rename], [Remove] and [Close] are the retry wrapper
    applied to the matching call of the client; [OpenRead] and [OpenWrite]
    call the client directly: their traces hold no call made by the
    wrapper and no sleep. *)
Theorem metadata_operations_retried_streams_not :
  forall (C R W : Type) (p : hdfsClient C R W),
    (forall path perm,
        retried (hdfs.MkdirAll (Client p) path perm) (MkdirAll p path perm)) /\
    (forall oldpath newpath,
        retried (hdfs.Rename (Client p) oldpath newpath) (Rename p oldpath newpath)) /\
    (forall path, retried (hdfs.Remove (Client p) path) (Remove p path)) /\
    (forall f, retried (hdfs.Close (Client p) f) (Close p f)) /\
    (forall name offset, unretried (OpenRead p name offset)) /\
    (forall name, unretried (OpenWrite p name)).
Proof.
  intros C R W p.
  split; [intros; apply withRetry_retried|].
  split; [intros; apply withRetry_retried|].
  split; [intros; apply withRetry_retried|].
  split; [intros; apply withRetry_retried|].
  split.
  - intros name offset w.
    destruct (hdfs.Open (Client p) name (state w)) as [[f | e] c1] eqn:Hopen.
    + destruct (hdfs.Seek (Client p) f offset os.SEEK_SET c1) as [[n [e|]] c2] eqn:Hseek.
      * rewrite (OpenRead_seek_fails p name offset w f c1 c2 n e Hopen Hseek).
        eexists. split; [reflexivity|]. now split.
      * rewrite (OpenRead_ok p name offset w f c1 c2 n Hopen Hseek).
        eexists. split; [reflexivity|]. now split.
    + rewrite (OpenRead_open_fails p name offset w e c1 Hopen).
      eexists. split; [reflexivity|]. now split.
  - intros name w.
    destruct (hdfs.Append (Client p) name (state w)) as [[f | e] c1] eqn:Happ.
    + rewrite (OpenWrite_append_ok p name w f c1 Happ).
      eexists. split; [reflexivity|]. now split.
    + destruct (hdfs.Create (Client p) name c1) as [r c2] eqn:Hcre.
      rewrite (OpenWrite_append_fails p name w e c1 c2 r Happ Hcre).
      eexists. split; [reflexivity|]. now split.
Qed.

(** ** The consumer *)

Lemma cons_split {A : Type} (a x : A) (l pre post : list A) :
  a :: l = pre ++ x :: post ->
  (pre = [] /\ a = x /\ l = post) \/
  (exists pre', pre = a :: pre' /\ l = pre' ++ x :: post).
Proof.
  destruct pre as [|b pre]; simpl; intros H; injection H as -> ->.
  - now left.
  - right. now exists pre.
Qed.

Section ConsumerFacts.

Context {X : Type}.
Variable methods : fileConsumerMethods X.

Lemma callNextFile_eq (t c : string) (w : World (fileConsumer X)) :
  callNextFile methods t c w =
  (fst (nextFile methods t c (state w)),
   mkWorld (snd (nextFile methods t c (state w)))
     (trace w ++ [NextFile t c (fst (fst (nextFile methods t c (state w))))
                    (snd (fst (nextFile methods t c (state w))))])).
Proof.
  unfold callNextFile, bind, lift, emit, ret.
  now destruct (nextFile methods t c (state w)).
Qed.

Lemma callFetchNextLow_eq (w : World (fileConsumer X)) :
  callFetchNextLow methods w =
  (fst (fetchNextLow methods (state w)),
   mkWorld (snd (fetchNextLow methods (state w)))
     (trace w ++ [FetchNextLow (fst (fetchNextLow methods (state w)))])).
Proof.
  unfold callFetchNextLow, bind, lift, emit, ret.
  now destruct (fetchNextLow methods (state w)).
Qed.

(** Discovery fails: the error is stored and the loop returns true. *)
Lemma wait_error (fuel : nat) (w : World (fileConsumer X)) (n : string)
  (e : errorValue) (s1 : fileConsumer X) :
  nextFile methods (topic (state w)) (name (state w)) (state w) = ((n, Some e), s1) ->
  waitAndOpenNextFile methods (S fuel) w =
  (Some true,
   mkWorld (mkFileConsumer (topic s1) (name s1) (Some e) (rest s1))
     (trace w ++ [NextFile (topic (state w)) (name (state w)) n (Some e)])).
Proof.
  intros Hnext. cbn [waitAndOpenNextFile]. unfold hdfsConsumer.
  rewrite callNextFile_eq, Hnext.
  reflexivity.
Qed.

(** Discovery gives a finalized name: it is opened at offset 0. *)
Lemma wait_open (fuel : nat) (w : World (fileConsumer X)) (n : string)
  (s1 : fileConsumer X) :
  nextFile methods (topic (state w)) (name (state w)) (state w) = ((n, None), s1) ->
  String.eqb n "" = false ->
  strings.HasSuffix n ".open" = false ->
  waitAndOpenNextFile methods (S fuel) w =
  (Some true,
   mkWorld (snd (openFile methods n 0 s1))
     (trace w ++ [NextFile (topic (state w)) (name (state w)) n None;
                  OpenFile n 0])).
Proof.
  intros Hnext Hne Hsuf. cbn [waitAndOpenNextFile]. unfold hdfsConsumer.
  rewrite callNextFile_eq, Hnext. cbn [fst snd log.E]. rewrite Hne, Hsuf.
  cbn [negb andb]. unfold callOpenFile, bind, emit, lift. cbn [state trace].
  destruct (openFile methods n 0 s1) as [[] s2]. cbn [snd].
  now rewrite <- app_assoc.
Qed.

(** Discovery gives no name, or one in progress: sleep and poll again. *)
Lemma wait_poll (fuel : nat) (w : World (fileConsumer X)) (n : string)
  (s1 : fileConsumer X) :
  nextFile methods (topic (state w)) (name (state w)) (state w) = ((n, None), s1) ->
  String.eqb n "" = true \/ strings.HasSuffix n ".open" = true ->
  waitAndOpenNextFile methods (S fuel) w =
  waitAndOpenNextFile methods fuel
    (mkWorld s1
       (trace w ++ [NextFile (topic (state w)) (name (state w)) n None;
                    Sleep (200 * time.Millisecond)])).
Proof.
  intros Hnext Hwait. cbn [waitAndOpenNextFile]. unfold hdfsConsumer.
  rewrite callNextFile_eq, Hnext. cbn [fst snd log.E].
  replace (negb (String.eqb n "") && negb (strings.HasSuffix n ".open"))
    with false by (destruct Hwait as [-> | ->];
                   [reflexivity | symmetry; apply andb_false_r]).
  unfold timeSleep, emit. cbn [state trace]. now rewrite <- app_assoc.
Qed.

Lemma wait_run (fuel : nat) :
  forall w : World (fileConsumer X),
  exists tr,
    trace (snd (waitAndOpenNextFile methods fuel w)) = trace w ++ tr /\
    fst (waitAndOpenNextFile methods fuel w) <> Some false /\
    (forall n offset,
        In (OpenFile n offset) tr -> n <> "" /\ ~ inProgress n /\ offset = 0) /\
    (forall pre t c n e post,
        tr = pre ++ NextFile t c n (Some e) :: post ->
        post = [] /\
        fst (waitAndOpenNextFile methods fuel w) = Some true /\
        err (state (snd (waitAndOpenNextFile methods fuel w))) = Some e).
Proof.
  induction fuel as [|fuel IH]; intros w.
  - exists []. cbn [waitAndOpenNextFile fst snd]. rewrite app_nil_r.
    split; [reflexivity|]. split; [discriminate|].
    split; [intros n offset []|].
    intros pre t c n e post H. destruct pre; discriminate.
  - destruct (nextFile methods (topic (state w)) (name (state w)) (state w))
      as [[n [e|]] s1] eqn:Hnext.
    + rewrite (wait_error fuel w n e s1 Hnext). cbn [fst snd state trace err].
      eexists. split; [reflexivity|]. split; [discriminate|]. split.
      * intros n' offset [H | []]. discriminate.
      * intros pre t c n' e' post H.
        apply cons_split in H as [[_ [H ->]] | [pre' [_ H]]].
        -- injection H as _ _ _ <-. auto.
        -- destruct pre'; discriminate.
    + destruct (String.eqb n "") eqn:Hne.
      * rewrite (wait_poll fuel w n s1 Hnext (or_introl Hne)).
        destruct (IH (mkWorld s1
                        (trace w ++ [NextFile (topic (state w)) (name (state w)) n None;
                                     Sleep (200 * time.Millisecond)])))
          as [tr [Htr [Hr [Hopen Herr]]]].
        exists (NextFile (topic (state w)) (name (state w)) n None
                  :: Sleep (200 * time.Millisecond) :: tr).
        split; [rewrite Htr; cbn [trace]; now rewrite <- app_assoc|].
        split; [exact Hr|]. split.
        -- intros n' offset [H | [H | H]]; [discriminate | discriminate | eauto].
        -- intros pre t c n' e post H.
           apply cons_split in H as [[_ [H _]] | [pre' [_ H]]]; [discriminate|].
           apply cons_split in H as [[_ [H _]] | [pre'' [_ H]]]; [discriminate|].
           eauto.
      * destruct (strings.HasSuffix n ".open") eqn:Hsuf.
        -- rewrite (wait_poll fuel w n s1 Hnext (or_intror Hsuf)).
           destruct (IH (mkWorld s1
                           (trace w ++ [NextFile (topic (state w)) (name (state w)) n None;
                                        Sleep (200 * time.Millisecond)])))
             as [tr [Htr [Hr [Hopen Herr]]]].
           exists (NextFile (topic (state w)) (name (state w)) n None
                     :: Sleep (200 * time.Millisecond) :: tr).
           split; [rewrite Htr; cbn [trace]; now rewrite <- app_assoc|].
           split; [exact Hr|]. split.
           ++ intros n' offset [H | [H | H]]; [discriminate | discriminate | eauto].
           ++ intros pre t c n' e post H.
              apply cons_split in H as [[_ [H _]] | [pre' [_ H]]]; [discriminate|].
              apply cons_split in H as [[_ [H _]] | [pre'' [_ H]]]; [discriminate|].
              eauto.
        -- rewrite (wait_open fuel w n s1 Hnext Hne Hsuf). cbn [fst snd trace].
           eexists. split; [reflexivity|]. split; [discriminate|]. split.
           ++ intros n' offset [H | [H | []]]; [discriminate|].
              injection H as <- <-. split; [|split; [|reflexivity]].
              ** intros ->. discriminate.
              ** intros Hin. apply HasSuffix_iff in Hin. congruence.
           ++ intros pre t c n' e post H.
              apply cons_split in H as [[_ [H _]] | [pre' [_ H]]]; [discriminate|].
              apply cons_split in H as [[_ [H _]] | [pre'' [_ H]]]; [discriminate|].
              destruct pre''; discriminate.
Qed.

End ConsumerFacts.

Section FetchFacts.

Context {X : Type}.
Variable methods : fileConsumerMethods X.

Lemma fetch_data (fuel : nat) (w : World (fileConsumer X)) (s0 : fileConsumer X) :
  fetchNextLow methods (state w) = (true, s0) ->
  FetchNext methods (S fuel) w =
  (Some true, mkWorld s0 (trace w ++ [FetchNextLow true])).
Proof.
  intros Hlow. cbn [FetchNext]. unfold hdfsConsumer.
  rewrite callFetchNextLow_eq, Hlow. reflexivity.
Qed.

Lemma fetch_wait (fuel : nat) (w : World (fileConsumer X)) (s0 : fileConsumer X) :
  fetchNextLow methods (state w) = (false, s0) ->
  FetchNext methods (S fuel) w =
  match
    waitAndOpenNextFile methods (S fuel)
      (mkWorld s0 (trace w ++ [FetchNextLow false]))
  with
  | (None, w2) => (None, w2)
  | (Some opened, w2) =>
      if negb opened then (Some false, w2)
      else
        match err (state w2) with
        | Some _ => (Some true, w2)
        | None => FetchNext methods fuel w2
        end
  end.
Proof.
  intros Hlow. cbn [FetchNext]. unfold hdfsConsumer.
  rewrite callFetchNextLow_eq, Hlow. reflexivity.
Qed.

Lemma fetch_run (fuel : nat) :
  forall w : World (fileConsumer X),
  exists tr,
    trace (snd (FetchNext methods fuel w)) = trace w ++ tr /\
    fst (FetchNext methods fuel w) <> Some false /\
    (forall pre t c n e post,
        tr = pre ++ NextFile t c n (Some e) :: post ->
        post = [] /\
        fst (FetchNext methods fuel w) = Some true /\
        err (state (snd (FetchNext methods fuel w))) = Some e).
Proof.
  induction fuel as [|fuel IH]; intros w.
  - exists []. cbn [FetchNext fst snd]. rewrite app_nil_r.
    split; [reflexivity|]. split; [discriminate|].
    intros pre t c n e post H. destruct pre; discriminate.
  - destruct (fetchNextLow methods (state w)) as [[|] s0] eqn:Hlow.
    + rewrite (fetch_data fuel w s0 Hlow). cbn [fst snd trace].
      eexists. split; [reflexivity|]. split; [discriminate|].
      intros pre t c n e post H.
      apply cons_split in H as [[_ [H _]] | [pre' [_ H]]]; [discriminate|].
      destruct pre'; discriminate.
    + rewrite (fetch_wait fuel w s0 Hlow).
      destruct (wait_run methods (S fuel) (mkWorld s0 (trace w ++ [FetchNextLow false])))
        as [trW [HtrW [Hnf [_ HerrW]]]].
      destruct (waitAndOpenNextFile methods (S fuel)
                  (mkWorld s0 (trace w ++ [FetchNextLow false])))
        as [[[|]|] w2]; cbn [fst snd negb trace] in *; unfold hdfsConsumer in *.
      * destruct (err (state w2)) as [e2|] eqn:Herr2.
        -- exists (FetchNextLow false :: trW). cbn [fst snd].
           split; [rewrite HtrW; now rewrite <- app_assoc|].
           split; [discriminate|].
           intros pre t c n e post H.
           apply cons_split in H as [[_ [H _]] | [pre' [_ H]]]; [discriminate|].
           destruct (HerrW _ _ _ _ _ _ H) as [Hpost [_ He]].
           rewrite Herr2. auto.
        -- destruct (IH w2) as [tr' [Htr' [Hnf' Herr']]].
           exists (FetchNextLow false :: trW ++ tr').
           split; [rewrite Htr', HtrW; now rewrite <- !app_assoc|].
           split; [exact Hnf'|].
           intros pre t c n e post H.
           apply cons_split in H as [[_ [H _]] | [pre' [_ H]]]; [discriminate|].
           apply app_eq_app in H as [l [[H1 H2] | [H1 H2]]].
           ++ destruct l as [|x l].
              ** rewrite app_nil_r in H1. simpl in H2. subst pre'.
                 apply (Herr' [] t c n e post). now symmetry.
              ** simpl in H2. injection H2 as <- ->.
                 destruct (HerrW _ _ _ _ _ _ H1) as [_ [_ He]]. congruence.
           ++ apply (Herr' l t c n e post). exact H2.
      * destruct Hnf. reflexivity.
      * exists (FetchNextLow false :: trW). cbn [fst snd].
        split; [rewrite HtrW; now rewrite <- app_assoc|].
        split; [discriminate|].
        intros pre t c n e post H.
        apply cons_split in H as [[_ [H _]] | [pre' [_ H]]]; [discriminate|].
        destruct (HerrW _ _ _ _ _ _ H) as [_ [Hr _]]. discriminate.
Qed.

End FetchFacts.

(** ** The consumer: claims *)

(** C2.  In every run of the wait loop, complete or still polling, each
    file opened has a name that is not empty and does not carry the
    in-progress marker, and is opened at offset 0.  When discovery gives a
    name in progress, the loop sleeps 200 ms and runs discovery again;
    when it gives a finalized name, the loop opens that file at offset 0
    and returns. *)
Theorem waitAndOpenNextFile_skips_in_progress :
  forall (X : Type) (methods : fileConsumerMethods X) (fuel : nat)
         (w : World (fileConsumer X)),
    (exists tr,
        trace (snd (waitAndOpenNextFile methods fuel w)) = trace w ++ tr /\
        forall n offset,
          In (OpenFile n offset) tr -> n <> "" /\ ~ inProgress n /\ offset = 0) /\
    (forall n s1,
        nextFile methods (topic (state w)) (name (state w)) (state w) =
        ((n, None), s1) ->
        inProgress n ->
        waitAndOpenNextFile methods (S fuel) w =
        waitAndOpenNextFile methods fuel
          (mkWorld s1
             (trace w ++ [NextFile (topic (state w)) (name (state w)) n None;
                          Sleep (200 * time.Millisecond)]))) /\
    (forall n s1,
        nextFile methods (topic (state w)) (name (state w)) (state w) =
        ((n, None), s1) ->
        n <> "" ->
        ~ inProgress n ->
        waitAndOpenNextFile methods (S fuel) w =
        (Some true,
         mkWorld (snd (openFile methods n 0 s1))
           (trace w ++ [NextFile (topic (state w)) (name (state w)) n None;
                        OpenFile n 0]))).
Proof.
  intros X methods fuel w. split; [|split].
  - destruct (wait_run methods fuel w) as [tr [Htr [_ [Hopen _]]]].
    now exists tr.
  - intros n s1 Hnext Hin. apply wait_poll; [assumption|].
    right. now apply HasSuffix_iff.
  - intros n s1 Hnext Hne Hfin. apply wait_open; [assumption| |].
    + apply String.eqb_neq. exact Hne.
    + destruct (strings.HasSuffix n ".open") eqn:Hsuf; [|reflexivity].
      destruct Hfin. now apply HasSuffix_iff.
Qed.

(** First in progress, then finalized: one sleep, then the file is opened. *)
Lemma waitAndOpenNextFile_skips_in_progress_witness :
  inProgress "T/1.open" /\
  "T/1" <> "" /\
  ~ inProgress "T/1" /\
  waitAndOpenNextFile doubles.scripted 2
    (doubles.consumer [("T/1.open", None); ("T/1", None)]) =
  waitAndOpenNextFile doubles.scripted 1
    (mkWorld (mkFileConsumer "T" "" None (doubles.mkEnv [("T/1", None)] 0))
       [NextFile "T" "" "T/1.open" None; Sleep (200 * time.Millisecond)]) /\
  waitAndOpenNextFile doubles.scripted 1
    (mkWorld (mkFileConsumer "T" "" None (doubles.mkEnv [("T/1", None)] 0))
       [NextFile "T" "" "T/1.open" None; Sleep (200 * time.Millisecond)]) =
  (Some true,
   mkWorld (mkFileConsumer "T" "T/1" None (doubles.mkEnv [] 1))
     [NextFile "T" "" "T/1.open" None; Sleep (200 * time.Millisecond);
      NextFile "T" "" "T/1" None; OpenFile "T/1" 0]).
Proof.
  assert (inProgress "T/1.open") as Hin by (now exists "T/1").
  assert ("T/1" <> "") as Hne by discriminate.
  assert (~ inProgress "T/1") as Hfin.
  { intros H. apply HasSuffix_iff in H. discriminate. }
  split; [exact Hin|]. split; [exact Hne|]. split; [exact Hfin|]. split.
  - apply (proj1 (proj2 (waitAndOpenNextFile_skips_in_progress
                           doubles.env doubles.scripted 1
                           (doubles.consumer [("T/1.open", None); ("T/1", None)])))
             "T/1.open"
             (mkFileConsumer "T" "" None (doubles.mkEnv [("T/1", None)] 0))
             eq_refl Hin).
  - apply (proj2 (proj2 (waitAndOpenNextFile_skips_in_progress
                           doubles.env doubles.scripted 0
                           (mkWorld
                              (mkFileConsumer "T" "" None
                                 (doubles.mkEnv [("T/1", None)] 0))
                              [NextFile "T" "" "T/1.open" None;
                               Sleep (200 * time.Millisecond)])))
             "T/1" (mkFileConsumer "T" "" None (doubles.mkEnv [] 0))
             eq_refl Hne Hfin).
Defined.

(** C7.  When discovery returns an error, the wait loop stores it in
    [p.err] and returns true, and so does [FetchNext] when it had no record
    to return first.  In every run of [FetchNext] a discovery that failed
    is the last event: the run has returned true and [p.err] holds that
    error, though no record was fetched. *)
Theorem FetchNext_true_on_discovery_error :
  forall (X : Type) (methods : fileConsumerMethods X) (fuel : nat)
         (w : World (fileConsumer X)),
    (forall n e s1,
        nextFile methods (topic (state w)) (name (state w)) (state w) =
        ((n, Some e), s1) ->
        waitAndOpenNextFile methods (S fuel) w =
        (Some true,
         mkWorld (mkFileConsumer (topic s1) (name s1) (Some e) (rest s1))
           (trace w ++ [NextFile (topic (state w)) (name (state w)) n (Some e)]))) /\
    (forall s0 n e s1,
        fetchNextLow methods (state w) = (false, s0) ->
        nextFile methods (topic s0) (name s0) s0 = ((n, Some e), s1) ->
        FetchNext methods (S fuel) w =
        (Some true,
         mkWorld (mkFileConsumer (topic s1) (name s1) (Some e) (rest s1))
           (trace w ++ [FetchNextLow false;
                        NextFile (topic s0) (name s0) n (Some e)]))) /\
    (exists tr,
        trace (snd (FetchNext methods fuel w)) = trace w ++ tr /\
        forall pre t c n e post,
          tr = pre ++ NextFile t c n (Some e) :: post ->
          post = [] /\
          fst (FetchNext methods fuel w) = Some true /\
          err (state (snd (FetchNext methods fuel w))) = Some e).
Proof.
  intros X methods fuel w. split; [|split].
  - intros n e s1. apply wait_error.
  - intros s0 n e s1 Hlow Hnext.
    rewrite (fetch_wait methods fuel w s0 Hlow).
    rewrite (wait_error methods fuel (mkWorld s0 (trace w ++ [FetchNextLow false]))
               n e s1 Hnext).
    cbn [negb state err trace]. now rewrite <- app_assoc.
  - destruct (fetch_run methods fuel w) as [tr [Htr [_ Herr]]].
    now exists tr.
Qed.

Lemma FetchNext_true_on_discovery_error_witness :
  doubles.scriptedFetchNextLow (state (doubles.consumer [("", Some doubles.errPermission)])) =
  (false, state (doubles.consumer [("", Some doubles.errPermission)])) /\
  FetchNext doubles.scripted 1 (doubles.consumer [("", Some doubles.errPermission)]) =
  (Some true,
   mkWorld (mkFileConsumer "T" "" (Some doubles.errPermission) (doubles.mkEnv [] 0))
     [FetchNextLow false; NextFile "T" "" "" (Some doubles.errPermission)]).
Proof.
  split; [reflexivity|].
  apply (proj1 (proj2 (FetchNext_true_on_discovery_error
                         doubles.env doubles.scripted 0
                         (doubles.consumer [("", Some doubles.errPermission)])))
           (state (doubles.consumer [("", Some doubles.errPermission)]))
           "" doubles.errPermission
           (mkFileConsumer "T" "" None (doubles.mkEnv [] 0))
           eq_refl eq_refl).
Defined.

(** Neither loop has a path that returns false. *)
Lemma FetchNext_not_false {X : Type} (methods : fileConsumerMethods X)
  (fuel : nat) (w : World (fileConsumer X)) :
  fst (waitAndOpenNextFile methods fuel w) <> Some false /\
  fst (FetchNext methods fuel w) <> Some false.
Proof.
  split.
  - now destruct (wait_run methods fuel w) as [tr [_ [H _]]].
  - now destruct (fetch_run methods fuel w) as [tr [_ [H _]]].
Qed.

(** C1, as the code has it.  When discovery returns an empty name and no
    error, the wait loop does not return: it sleeps 200 ms and runs
    discovery again, as it does for a name in progress.  A call of
    [FetchNext] that meets this answer does not return there either: its
    trace goes on with that sleep. *)
Theorem FetchNext_empty_candidate_polls :
  forall (X : Type) (methods : fileConsumerMethods X) (fuel : nat)
         (w : World (fileConsumer X)),
    (forall s1,
        nextFile methods (topic (state w)) (name (state w)) (state w) =
        (("", None), s1) ->
        waitAndOpenNextFile methods (S fuel) w =
        waitAndOpenNextFile methods fuel
          (mkWorld s1
             (trace w ++ [NextFile (topic (state w)) (name (state w)) "" None;
                          Sleep (200 * time.Millisecond)]))) /\
    (forall s0 s1,
        fetchNextLow methods (state w) = (false, s0) ->
        nextFile methods (topic s0) (name s0) s0 = (("", None), s1) ->
        exists tr,
          trace (snd (FetchNext methods (S fuel) w)) =
          trace w ++ FetchNextLow false
                  :: NextFile (topic s0) (name s0) "" None
                  :: Sleep (200 * time.Millisecond) :: tr).
Proof.
  intros X methods fuel w. split.
  - intros s1 Hnext. apply wait_poll; [assumption | now left].
  - intros s0 s1 Hlow Hnext.
    rewrite (fetch_wait methods fuel w s0 Hlow).
    rewrite (wait_poll methods fuel (mkWorld s0 (trace w ++ [FetchNextLow false]))
               "" s1 Hnext (or_introl eq_refl)).
    cbn [state trace]. rewrite <- app_assoc. cbn [app].
    set (w2 := mkWorld s1 _).
    destruct (wait_run methods fuel w2) as [trW [HtrW _]].
    destruct (waitAndOpenNextFile methods fuel w2) as [[[|]|] w3];
      cbn [fst snd negb] in *; unfold hdfsConsumer in *.
    + destruct (err (state w3)).
      * exists trW. cbn [snd]. rewrite HtrW. unfold w2. cbn [trace].
        now rewrite <- app_assoc.
      * destruct (fetch_run methods fuel w3) as [tr' [Htr' _]].
        unfold Run, hdfsConsumer in *.
        exists (trW ++ tr'). rewrite Htr', HtrW. unfold w2. cbn [trace].
        now rewrite <- !app_assoc.
    + exists trW. cbn [snd]. rewrite HtrW. unfold w2. cbn [trace].
      now rewrite <- app_assoc.
    + exists trW. cbn [snd]. rewrite HtrW. unfold w2. cbn [trace].
      now rewrite <- app_assoc.
Qed.

Lemma FetchNext_empty_candidate_polls_witness :
  doubles.scriptedFetchNextLow (state (doubles.consumer [])) =
  (false, state (doubles.consumer [])) /\
  doubles.scriptedNextFile "T" "" (state (doubles.consumer [])) =
  (("", None), state (doubles.consumer [])) /\
  exists tr,
    trace (snd (FetchNext doubles.scripted 3 (doubles.consumer []))) =
    [] ++ FetchNextLow false :: NextFile "T" "" "" None
          :: Sleep (200 * time.Millisecond) :: tr.
Proof.
  split; [reflexivity|]. split; [reflexivity|].
  apply (proj2 (FetchNext_empty_candidate_polls
                  doubles.env doubles.scripted 2 (doubles.consumer []))
           (state (doubles.consumer [])) (state (doubles.consumer []))
           eq_refl eq_refl).
Defined.

(** C1, as the claim has it, fails.  Discovery that answers with an empty
    name and no error, for ever: no number of iterations makes [FetchNext]
    return false; after two it is still polling.  And when a finalized file
    follows the empty answer, [FetchNext] returns true. *)
Lemma FetchNext_cancel_counterexample :
  doubles.scriptedFetchNextLow (state (doubles.consumer [])) =
  (false, state (doubles.consumer [])) /\
  doubles.scriptedNextFile "T" "" (state (doubles.consumer [])) =
  (("", None), state (doubles.consumer [])) /\
  ~ (exists fuel,
        fst (FetchNext doubles.scripted fuel (doubles.consumer [])) = Some false) /\
  FetchNext doubles.scripted 2 (doubles.consumer []) =
  (None,
   mkWorld (mkFileConsumer "T" "" None (doubles.mkEnv [] 0))
     [FetchNextLow false;
      NextFile "T" "" "" None; Sleep (200 * time.Millisecond);
      NextFile "T" "" "" None; Sleep (200 * time.Millisecond)]) /\
  FetchNext doubles.scripted 2 (doubles.consumer [("", None); ("T/1", None)]) =
  (Some true,
   mkWorld (mkFileConsumer "T" "T/1" None (doubles.mkEnv [] 0))
     [FetchNextLow false;
      NextFile "T" "" "" None; Sleep (200 * time.Millisecond);
      NextFile "T" "" "T/1" None; OpenFile "T/1" 0; FetchNextLow true]).
Proof.
  split; [reflexivity|]. split; [reflexivity|]. split; [|split].
  - intros [fuel H].
    now apply (proj2 (FetchNext_not_false doubles.scripted fuel (doubles.consumer []))).
  - vm_compute. reflexivity.
  - vm_compute. reflexivity.
Qed.

(** * Further properties *)

(** X1.  When the first [k] calls of [fn] fail transiently, with [k] at
    most 100, and call number [k] succeeds or fails for good, [withRetry]
    returns the result of that call: [fn] has been called [k + 1] times
    and nothing else has touched the state, and [k] sleeps of 100 ms were
    made. *)
Theorem withRetry_recovers_within_budget :
  forall (St : Type) (fn : @closure St) (w : World St) (k : nat),
    (k <= 100)%nat ->
    (forall j, (j < k)%nat -> transient (resultOf fn j (state w))) ->
    permanent (resultOf fn k (state w)) ->
    withRetry fn w =
    (resultOf fn k (state w),
     mkWorld (stateAfter fn (S k) (state w))
       (trace w ++ Attempt (fst (fn (state w)))
                :: roundsOf fn k (snd (fn (state w))))) /\
    attempts (Attempt (fst (fn (state w))) :: roundsOf fn k (snd (fn (state w)))) =
    S k /\
    sleeps (Attempt (fst (fn (state w))) :: roundsOf fn k (snd (fn (state w)))) =
    repeat (100 * time.Millisecond) k.
Proof.
  intros St fn w k Hk Hcalls Hlast. split; [|split].
  - rewrite (withRetry_rounds fn k w Hk Hcalls).
    apply retryLoop_stop. now apply retryGuard_permanent.
  - change (attempts (Attempt (fst (fn (state w))) :: roundsOf fn k (snd (fn (state w)))))
      with (S (attempts (roundsOf fn k (snd (fn (state w)))))).
    now rewrite attempts_roundsOf.
  - cbn [sleeps]. apply sleeps_roundsOf.
Qed.

Lemma withRetry_recovers_within_budget_witness :
  (2 <= 100)%nat /\
  withRetry (standbyFor 2) (mkWorld O []) =
  (None,
   mkWorld 3%nat
     [Attempt (Some memfs.errStandby); Sleep (100 * time.Millisecond);
      Attempt (Some memfs.errStandby); Sleep (100 * time.Millisecond);
      Attempt None]).
Proof.
  assert (2 <= 100)%nat as Hk by lia.
  split; [exact Hk|].
  apply (proj1 (withRetry_recovers_within_budget nat (standbyFor 2) (mkWorld O []) 2
                  Hk (fun j Hj => standbyFor_transient 2 j Hj)
                  (standbyFor_permanent 2))).
Defined.

(** X2.  When the first 101 calls of [fn] fail transiently, [withRetry]
    returns the failure of call number 100 (the 101st) after exactly 101
    calls, whatever a further call would have returned. *)
Theorem withRetry_gives_up_after_101_calls :
  forall (St : Type) (fn : @closure St) (w : World St),
    (forall j, (j <= 100)%nat -> transient (resultOf fn j (state w))) ->
    withRetry fn w =
    (resultOf fn 100 (state w),
     mkWorld (stateAfter fn 101 (state w))
       (trace w ++ Attempt (fst (fn (state w)))
                :: roundsOf fn 100 (snd (fn (state w))))).
Proof.
  intros St fn w Hcalls.
  rewrite (withRetry_rounds fn 100 w (Nat.le_refl 100)).
  - reflexivity.
  - intros j Hj. apply Hcalls. lia.
Qed.

(** The name node comes back for call 102: one call too late. *)
Lemma withRetry_gives_up_after_101_calls_witness :
  fst (withRetry (standbyFor 101) (mkWorld O [])) = Some memfs.errStandby /\
  state (snd (withRetry (standbyFor 101) (mkWorld O []))) = 101%nat /\
  fst (standbyFor 101 101%nat) = None.
Proof.
  pose proof (withRetry_gives_up_after_101_calls nat (standbyFor 101) (mkWorld O [])
                (fun j Hj => standbyFor_transient 101 j (proj2 (Nat.lt_succ_r j 100) Hj)))
    as H.
  rewrite H. cbn [fst snd state].
  split; [|split; [|reflexivity]].
  - unfold resultOf. rewrite standbyFor_stateAfter. reflexivity.
  - apply standbyFor_stateAfter.
Defined.

(** With the value 10 that the file gives the variable, [withRetryAt] is
    [withRetry]. *)
Lemma withRetryAt_default {St : Type} (fn : @closure St) (w : World St) :
  withRetryAt fn retryTimeout w = withRetry fn w.
Proof. reflexivity. Qed.




Lemma string_app_assoc (a b c : string) :
  ((a ++ b) ++ c)%string = (a ++ b ++ c)%string.
Proof. induction a as [|x a IH]; simpl; [reflexivity | now rewrite IH]. Qed.

(** X4.  Wrapping keeps an error transient: when the text of [e] is
    classified transient, so is every text that contains it, whatever
    comes before and after. *)
Theorem retriable_wrapped :
  forall (e : errorValue) (pre post : string),
    retriable e = true ->
    retriable (errorString (pre ++ Error e ++ post)%string) = true.
Proof.
  intros e pre post. unfold retriable. cbn [Error].
  rewrite !orb_true_iff, !Contains_iff.
  intros [[b [a H]] | [b [a H]]]; [left | right];
    exists (pre ++ b)%string, (a ++ post)%string; rewrite H;
    now rewrite !string_app_assoc.
Qed.

Lemma retriable_wrapped_witness :
  retriable memfs.errStandby = true /\
  retriable
    (errorString ("rename /a /b: " ++ Error memfs.errStandby ++ " (retry later)")%string) =
  true.
Proof.
  split; [reflexivity|].
  apply (retriable_wrapped memfs.errStandby "rename /a /b: " " (retry later)").
  reflexivity.
Defined.

(** ** The metadata operations, call by call *)

(** X5.  For every client: when the call of the client behind [MkdirAll],
    [Rename], [Remove] or [Close] fails transiently [k] times, with [k] at
    most 100, and then succeeds or fails for good, the operation returns
    the result of that last call, after [k + 1] calls of the client and
    [k] sleeps of 100 ms, in the state that these calls leave. *)
Theorem metadata_operations_recover_within_budget :
  forall (C R W : Type) (p : hdfsClient C R W) (w : World C) (k : nat),
    (k <= 100)%nat ->
    (forall path perm,
        recovers (hdfs.MkdirAll (Client p) path perm) (MkdirAll p path perm) k w) /\
    (forall oldpath newpath,
        recovers (hdfs.Rename (Client p) oldpath newpath)
          (Rename p oldpath newpath) k w) /\
    (forall path, recovers (hdfs.Remove (Client p) path) (Remove p path) k w) /\
    (forall f, recovers (hdfs.Close (Client p) f) (Close p f) k w).
Proof.
  intros C R W p w k Hk.
  split; [|split; [|split]]; intros; intros Hfirst Hperm;
    apply withRetry_afterCalls; auto.
Qed.

(** Three refusals, then the rename goes through. *)
Lemma metadata_operations_recover_within_budget_witness :
  (3 <= 100)%nat /\
  failsFirst (standbyFor 3) 3 O /\
  permanent (resultOf (standbyFor 3) 3 O) /\
  Rename (mkHdfsClient (flakyClient 3)) "T/1.open" "T/1" (mkWorld O []) =
  (None,
   mkWorld 4%nat
     [Attempt (Some memfs.errStandby); Sleep (100 * time.Millisecond);
      Attempt (Some memfs.errStandby); Sleep (100 * time.Millisecond);
      Attempt (Some memfs.errStandby); Sleep (100 * time.Millisecond);
      Attempt None]).
Proof.
  assert (3 <= 100)%nat as Hk by lia.
  assert (failsFirst (standbyFor 3) 3 O) as Hfirst
    by (intros j Hj; now apply standbyFor_transient).
  pose proof (standbyFor_permanent 3) as Hperm.
  split; [exact Hk|]. split; [exact Hfirst|]. split; [exact Hperm|].
  apply (proj1 (proj2 (metadata_operations_recover_within_budget
                         nat unit unit (mkHdfsClient (flakyClient 3))
                         (mkWorld O []) 3 Hk))
           "T/1.open" "T/1" Hfirst Hperm).
Defined.

(** X6.  For every client: when the call of the client behind
    [MkdirAll], [Rename], [Remove] or [Close] fails transiently 101 times,
    the operation returns the failure of the 101st call, after 101 calls
    of the client and 100 sleeps of 100 ms, whatever a further call would
    have returned. *)
Theorem metadata_operations_give_up_after_101_calls :
  forall (C R W : Type) (p : hdfsClient C R W) (w : World C),
    (forall path perm,
        givesUp (hdfs.MkdirAll (Client p) path perm) (MkdirAll p path perm) w) /\
    (forall oldpath newpath,
        givesUp (hdfs.Rename (Client p) oldpath newpath) (Rename p oldpath newpath) w) /\
    (forall path, givesUp (hdfs.Remove (Client p) path) (Remove p path) w) /\
    (forall f, givesUp (hdfs.Close (Client p) f) (Close p f) w).
Proof.
  intros C R W p w.
  split; [|split; [|split]]; intros; intros Hfirst;
    (apply withRetry_afterCalls; [apply Nat.le_refl | | now left]);
    intros j Hj; apply Hfirst; lia.
Qed.

(** The name node refuses 101 calls and would serve call 102. *)
Lemma metadata_operations_give_up_after_101_calls_witness :
  failsFirst (standbyFor 101) 101 O /\
  fst (Remove (mkHdfsClient (flakyClient 101)) "T/1" (mkWorld O [])) =
  Some memfs.errStandby /\
  state (snd (Remove (mkHdfsClient (flakyClient 101)) "T/1" (mkWorld O []))) = 101%nat.
Proof.
  assert (failsFirst (standbyFor 101) 101 O) as Hfirst
    by (intros j Hj; now apply standbyFor_transient).
  split; [exact Hfirst|].
  rewrite (proj1 (proj2 (proj2 (metadata_operations_give_up_after_101_calls
                                  nat unit unit (mkHdfsClient (flakyClient 101))
                                  (mkWorld O []))))
             "T/1" Hfirst).
  unfold afterCalls. cbn [fst snd state].
  change (hdfs.Remove (Client (mkHdfsClient (flakyClient 101))) "T/1")
    with (standbyFor 101).
  split.
  - unfold resultOf. rewrite standbyFor_stateAfter. reflexivity.
  - apply (standbyFor_stateAfter 101 101 O).
Defined.

(** ** [OpenWrite] on the in-memory cluster *)






(** ** The wait loop, poll by poll *)

Lemma waitRun_facts (tr : list event) (r : option bool) :
  waitRun tr r ->
  r <> Some false /\
  (forall d, In (Sleep d) tr -> d = 200 * time.Millisecond) /\
  (forall n offset,
      In (OpenFile n offset) tr -> n <> "" /\ ~ inProgress n /\ offset = 0) /\
  discoveries tr =
  (List.length (sleeps tr) + match r with Some _ => 1 | None => 0 end)%nat.
Proof.
  induction 1 as [| t c n e | t c n Hne Hfin | t c n tr r Hn Hrun IH].
  - split; [discriminate|]. split; [intros d []|]. split; [intros n o []|].
    reflexivity.
  - split; [discriminate|]. split; [|split; [|reflexivity]].
    + intros d [H | []]. discriminate.
    + intros n' o [H | []]. discriminate.
  - split; [discriminate|]. split; [|split; [|reflexivity]].
    + intros d [H | [H | []]]; discriminate.
    + intros n' o [H | [H | []]]; [discriminate|].
      injection H as <- <-. auto.
  - destruct IH as [Hr [Hsl [Hop Hd]]].
    split; [exact Hr|]. split; [|split].
    + intros d [H | [H | H]]; [discriminate | now injection H as <- | auto].
    + intros n' o [H | [H | H]]; [discriminate | discriminate | eauto].
    + cbn [discoveries sleeps List.length]. rewrite Hd. reflexivity.
Qed.

Section PollFacts.

Context {X : Type}.
Variable methods : fileConsumerMethods X.

Lemma wait_shape (fuel : nat) :
  forall w : World (fileConsumer X),
  exists tr,
    trace (snd (waitAndOpenNextFile methods fuel w)) = trace w ++ tr /\
    waitRun tr (fst (waitAndOpenNextFile methods fuel w)).
Proof.
  induction fuel as [|fuel IH]; intros w.
  - exists []. cbn [waitAndOpenNextFile fst snd]. rewrite app_nil_r.
    split; [reflexivity | apply waitPolling].
  - destruct (nextFile methods (topic (state w)) (name (state w)) (state w))
      as [[n [e|]] s1] eqn:Hnext.
    + rewrite (wait_error methods fuel w n e s1 Hnext). cbn [fst snd trace].
      eexists. split; [reflexivity | apply waitFailed].
    + destruct (String.eqb n "") eqn:Hne;
        [|destruct (strings.HasSuffix n ".open") eqn:Hsuf].
      * rewrite (wait_poll methods fuel w n s1 Hnext (or_introl Hne)).
        destruct (IH (mkWorld s1
                        (trace w ++ [NextFile (topic (state w)) (name (state w)) n None;
                                     Sleep (200 * time.Millisecond)])))
          as [tr [Htr Hrun]].
        eexists. split.
        -- rewrite Htr. cbn [trace]. rewrite <- app_assoc. reflexivity.
        -- apply waitAgain; [left; now apply String.eqb_eq | exact Hrun].
      * rewrite (wait_poll methods fuel w n s1 Hnext (or_intror Hsuf)).
        destruct (IH (mkWorld s1
                        (trace w ++ [NextFile (topic (state w)) (name (state w)) n None;
                                     Sleep (200 * time.Millisecond)])))
          as [tr [Htr Hrun]].
        eexists. split.
        -- rewrite Htr. cbn [trace]. rewrite <- app_assoc. reflexivity.
        -- apply waitAgain; [right; now apply HasSuffix_iff | exact Hrun].
      * rewrite (wait_open methods fuel w n s1 Hnext Hne Hsuf). cbn [fst snd trace].
        eexists. split; [reflexivity|]. apply waitOpened.
        -- now apply String.eqb_neq.
        -- intros Hin. apply HasSuffix_iff in Hin. congruence.
Qed.

Lemma unfinished_test (n : string) :
  n = "" \/ inProgress n ->
  String.eqb n "" = true \/ strings.HasSuffix n ".open" = true.
Proof.
  intros [-> | Hin]; [now left | right]. now apply HasSuffix_iff.
Qed.

Lemma sleeps_pollEvents (k : nat) :
  forall s,
    sleeps (pollEvents methods k s) = repeat (200 * time.Millisecond) k /\
    discoveries (pollEvents methods k s) = k.
Proof.
  induction k as [|k IH]; intros s; [now split|].
  cbn [pollEvents sleeps discoveries repeat].
  destruct (IH (snd (nextFile methods (topic s) (name s) s))) as [-> ->].
  now split.
Qed.

(** [k] polls that find nothing use up [k] iterations. *)
Lemma wait_after_polls (k : nat) (s s' : fileConsumer X) :
  pollsTo methods k s s' ->
  forall (tr0 : list event) (fuel : nat),
    waitAndOpenNextFile methods (k + fuel) (mkWorld s tr0) =
    waitAndOpenNextFile methods fuel (mkWorld s' (tr0 ++ pollEvents methods k s)).
Proof.
  induction 1 as [s | k s n s1 s' Hnext Hn Hpolls IH]; intros tr0 fuel.
  - cbn [Nat.add pollEvents]. now rewrite app_nil_r.
  - change (S k + fuel)%nat with (S (k + fuel)).
    rewrite (wait_poll methods (k + fuel) (mkWorld s tr0) n s1 Hnext
               (unfinished_test n Hn)).
    rewrite IH. cbn [state trace pollEvents]. rewrite Hnext. cbn [fst snd].
    now rewrite <- app_assoc.
Qed.

Lemma wait_still_polling (k : nat) (s s' : fileConsumer X) :
  pollsTo methods k s s' ->
  forall (tr0 : list event) (fuel : nat),
    (fuel <= k)%nat ->
    fst (waitAndOpenNextFile methods fuel (mkWorld s tr0)) = None.
Proof.
  induction 1 as [s | k s n s1 s' Hnext Hn Hpolls IH]; intros tr0 fuel Hfuel.
  - now replace fuel with O by lia.
  - destruct fuel as [|fuel]; [reflexivity|].
    rewrite (wait_poll methods fuel (mkWorld s tr0) n s1 Hnext
               (unfinished_test n Hn)).
    apply IH. lia.
Qed.

End PollFacts.

(** X8.  Every run of the wait loop, complete or still polling, is a
    sequence of discoveries that gave no name or a name in progress, each
    followed by a sleep of 200 ms, ended, when the loop has returned, by
    one discovery that failed or gave a finalized name, opened at offset
    0.  So the loop never returns false, every sleep lasts 200 ms, and a
    run that has returned made one discovery more than it slept. *)
Theorem waitAndOpenNextFile_run_shape :
  forall (X : Type) (methods : fileConsumerMethods X) (fuel : nat)
         (w : World (fileConsumer X)),
  exists tr,
    trace (snd (waitAndOpenNextFile methods fuel w)) = trace w ++ tr /\
    waitRun tr (fst (waitAndOpenNextFile methods fuel w)) /\
    fst (waitAndOpenNextFile methods fuel w) <> Some false /\
    (forall d, In (Sleep d) tr -> d = 200 * time.Millisecond) /\
    discoveries tr =
    (List.length (sleeps tr) +
     match fst (waitAndOpenNextFile methods fuel w) with
     | Some _ => 1
     | None => 0
     end)%nat.
Proof.
  intros X methods fuel w.
  destruct (wait_shape methods fuel w) as [tr [Htr Hrun]].
  destruct (waitRun_facts _ _ Hrun) as [Hr [Hsl [_ Hd]]].
  exists tr. auto.
Qed.

(** X9.  When the next [k] discoveries give no name or a name in progress
    and the one after gives a finalized name, the wait loop returns true
    in iteration [k + 1], not before: it has slept [k] times 200 ms and
    opened that name at offset 0, and nothing else. *)
Theorem waitAndOpenNextFile_opens_after_polls :
  forall (X : Type) (methods : fileConsumerMethods X) (w : World (fileConsumer X))
         (k : nat) (s' s2 : fileConsumer X) (n : string),
    pollsTo methods k (state w) s' ->
    nextFile methods (topic s') (name s') s' = ((n, None), s2) ->
    n <> "" ->
    ~ inProgress n ->
    (forall fuel,
        (k < fuel)%nat ->
        waitAndOpenNextFile methods fuel w =
        (Some true,
         mkWorld (snd (openFile methods n 0 s2))
           (trace w ++ pollEvents methods k (state w)
                    ++ [NextFile (topic s') (name s') n None; OpenFile n 0]))) /\
    (forall fuel,
        (fuel <= k)%nat -> fst (waitAndOpenNextFile methods fuel w) = None) /\
    sleeps (pollEvents methods k (state w)) = repeat (200 * time.Millisecond) k.
Proof.
  intros X methods w k s' s2 n Hpolls Hnext Hne Hfin.
  destruct w as [s tr0]. cbn [state trace] in *.
  split; [|split].
  - intros fuel Hfuel.
    replace fuel with (k + S (fuel - S k))%nat by lia.
    rewrite (wait_after_polls methods k s s' Hpolls).
    rewrite (wait_open methods _ (mkWorld s' (tr0 ++ pollEvents methods k s)) n s2 Hnext).
    + cbn [state trace]. now rewrite <- app_assoc.
    + now apply String.eqb_neq.
    + destruct (strings.HasSuffix n ".open") eqn:Hsuf; [|reflexivity].
      destruct Hfin. now apply HasSuffix_iff.
  - intros fuel Hfuel. now apply (wait_still_polling methods k s s' Hpolls).
  - apply sleeps_pollEvents.
Qed.

Lemma waitAndOpenNextFile_opens_after_polls_witness :
  pollsTo doubles.scripted 2
    (state (doubles.consumer [("", None); ("T/1.open", None); ("T/1", None)]))
    (mkFileConsumer "T" "" None (doubles.mkEnv [("T/1", None)] 0)) /\
  waitAndOpenNextFile doubles.scripted 3
    (doubles.consumer [("", None); ("T/1.open", None); ("T/1", None)]) =
  (Some true,
   mkWorld (mkFileConsumer "T" "T/1" None (doubles.mkEnv [] 1))
     [NextFile "T" "" "" None; Sleep (200 * time.Millisecond);
      NextFile "T" "" "T/1.open" None; Sleep (200 * time.Millisecond);
      NextFile "T" "" "T/1" None; OpenFile "T/1" 0]) /\
  fst (waitAndOpenNextFile doubles.scripted 2
         (doubles.consumer [("", None); ("T/1.open", None); ("T/1", None)])) = None.
Proof.
  assert (pollsTo doubles.scripted 2
            (state (doubles.consumer [("", None); ("T/1.open", None); ("T/1", None)]))
            (mkFileConsumer "T" "" None (doubles.mkEnv [("T/1", None)] 0))) as Hpolls.
  { eapply pollsOnce; [reflexivity | now left |].
    eapply pollsOnce; [reflexivity | right; now exists "T/1" |].
    apply pollsNone. }
  assert ("T/1" <> "") as Hne by discriminate.
  assert (~ inProgress "T/1") as Hfin.
  { intros H. apply HasSuffix_iff in H. discriminate. }
  pose proof (waitAndOpenNextFile_opens_after_polls
                doubles.env doubles.scripted
                (doubles.consumer [("", None); ("T/1.open", None); ("T/1", None)])
                2 _ (mkFileConsumer "T" "" None (doubles.mkEnv [] 0)) "T/1"
                Hpolls eq_refl Hne Hfin) as [Hret [Hnot _]].
  split; [exact Hpolls|]. split.
  - apply (Hret 3%nat). lia.
  - apply (Hnot 2%nat). lia.
Defined.

(** X10.  When the next [k] discoveries give no name or a name in
    progress and the one after fails, the wait loop returns true in
    iteration [k + 1] with that error stored in [p.err]; it has slept [k]
    times 200 ms and opened nothing. *)
Theorem waitAndOpenNextFile_fails_after_polls :
  forall (X : Type) (methods : fileConsumerMethods X) (w : World (fileConsumer X))
         (k : nat) (s' s2 : fileConsumer X) (n : string) (e : errorValue),
    pollsTo methods k (state w) s' ->
    nextFile methods (topic s') (name s') s' = ((n, Some e), s2) ->
    forall fuel,
      (k < fuel)%nat ->
      waitAndOpenNextFile methods fuel w =
      (Some true,
       mkWorld (mkFileConsumer (topic s2) (name s2) (Some e) (rest s2))
         (trace w ++ pollEvents methods k (state w)
                  ++ [NextFile (topic s') (name s') n (Some e)])).
Proof.
  intros X methods w k s' s2 n e Hpolls Hnext fuel Hfuel.
  destruct w as [s tr0]. cbn [state trace] in *.
  replace fuel with (k + S (fuel - S k))%nat by lia.
  rewrite (wait_after_polls methods k s s' Hpolls).
  rewrite (wait_error methods _ (mkWorld s' (tr0 ++ pollEvents methods k s)) n e s2 Hnext).
  cbn [state trace]. now rewrite <- app_assoc.
Qed.

Lemma waitAndOpenNextFile_fails_after_polls_witness :
  waitAndOpenNextFile doubles.scripted 2
    (doubles.consumer [("T/1.open", None); ("", Some doubles.errPermission)]) =
  (Some true,
   mkWorld (mkFileConsumer "T" "" (Some doubles.errPermission) (doubles.mkEnv [] 0))
     [NextFile "T" "" "T/1.open" None; Sleep (200 * time.Millisecond);
      NextFile "T" "" "" (Some doubles.errPermission)]).
Proof.
  assert (pollsTo doubles.scripted 1
            (state (doubles.consumer
                      [("T/1.open", None); ("", Some doubles.errPermission)]))
            (mkFileConsumer "T" "" None
               (doubles.mkEnv [("", Some doubles.errPermission)] 0))) as Hpolls.
  { eapply pollsOnce; [reflexivity | right; now exists "T/1" |]. apply pollsNone. }
  apply (waitAndOpenNextFile_fails_after_polls
           doubles.env doubles.scripted
           (doubles.consumer [("T/1.open", None); ("", Some doubles.errPermission)])
           1 _ (mkFileConsumer "T" "" None (doubles.mkEnv [] 0)) ""
           doubles.errPermission Hpolls eq_refl 2%nat).
  lia.
Defined.

(** ** [FetchNext], file by file *)

Section RotationFacts.

Context {X : Type}.
Variable methods : fileConsumerMethods X.

Lemma wait_opens_after (k : nat) (s s' s2 : fileConsumer X) (n : string)
  (tr0 : list event) (fuel : nat) :
  pollsTo methods k s s' ->
  nextFile methods (topic s') (name s') s' = ((n, None), s2) ->
  n <> "" ->
  ~ inProgress n ->
  (k < fuel)%nat ->
  waitAndOpenNextFile methods fuel (mkWorld s tr0) =
  (Some true,
   mkWorld (snd (openFile methods n 0 s2))
     (tr0 ++ pollEvents methods k s
          ++ [NextFile (topic s') (name s') n None; OpenFile n 0])).
Proof.
  intros Hpolls Hnext Hne Hfin Hfuel.
  replace fuel with (k + S (fuel - S k))%nat by lia.
  rewrite (wait_after_polls methods k s s' Hpolls).
  rewrite (wait_open methods _ (mkWorld s' (tr0 ++ pollEvents methods k s)) n s2 Hnext).
  - cbn [state trace]. now rewrite <- app_assoc.
  - now apply String.eqb_neq.
  - destruct (strings.HasSuffix n ".open") eqn:Hsuf; [|reflexivity].
    destruct Hfin. now apply HasSuffix_iff.
Qed.

Lemma fetch_events (fuel : nat) :
  forall w : World (fileConsumer X),
  exists tr,
    trace (snd (FetchNext methods fuel w)) = trace w ++ tr /\
    (forall n offset,
        In (OpenFile n offset) tr -> n <> "" /\ ~ inProgress n /\ offset = 0) /\
    (forall d, In (Sleep d) tr -> d = 200 * time.Millisecond) /\
    (fst (FetchNext methods fuel w) = Some true ->
     (exists pre, tr = pre ++ [FetchNextLow true]) \/
     (exists e, err (state (snd (FetchNext methods fuel w))) = Some e)).
Proof.
  induction fuel as [|fuel IH]; intros w.
  - exists []. cbn [FetchNext fst snd]. rewrite app_nil_r.
    split; [reflexivity|]. split; [intros n o []|]. split; [intros d []|].
    discriminate.
  - destruct (fetchNextLow methods (state w)) as [[|] s0] eqn:Hlow.
    + rewrite (fetch_data methods fuel w s0 Hlow). cbn [fst snd trace].
      eexists. split; [reflexivity|]. split; [|split].
      * intros n o [H | []]. discriminate.
      * intros d [H | []]. discriminate.
      * intros _. left. now exists [].
    + rewrite (fetch_wait methods fuel w s0 Hlow).
      destruct (wait_shape methods (S fuel) (mkWorld s0 (trace w ++ [FetchNextLow false])))
        as [trW [HtrW HrunW]].
      destruct (waitRun_facts _ _ HrunW) as [Hnf [HslW [HopW _]]].
      destruct (waitAndOpenNextFile methods (S fuel)
                  (mkWorld s0 (trace w ++ [FetchNextLow false])))
        as [[[|]|] w2]; cbn [fst snd negb trace] in *; unfold hdfsConsumer in *.
      * destruct (err (state w2)) as [e2|] eqn:Herr2.
        -- exists (FetchNextLow false :: trW). cbn [fst snd].
           split; [rewrite HtrW; now rewrite <- app_assoc|].
           split; [|split].
           ++ intros n o [H | H]; [discriminate | eauto].
           ++ intros d [H | H]; [discriminate | eauto].
           ++ intros _. right. now exists e2.
        -- destruct (IH w2) as [tr' [Htr' [Hop' [Hsl' Htrue']]]].
           unfold Run, hdfsConsumer in *.
           exists (FetchNextLow false :: trW ++ tr').
           split; [rewrite Htr', HtrW; now rewrite <- !app_assoc|].
           split; [|split].
           ++ intros n o [H | H]; [discriminate|].
              apply in_app_or in H as [H | H]; eauto.
           ++ intros d [H | H]; [discriminate|].
              apply in_app_or in H as [H | H]; eauto.
           ++ intros Ht. destruct (Htrue' Ht) as [[pre Hpre] | He]; [left | now right].
              exists (FetchNextLow false :: trW ++ pre). rewrite Hpre.
              cbn [app]. now rewrite <- app_assoc.
      * destruct Hnf. reflexivity.
      * exists (FetchNextLow false :: trW). cbn [fst snd].
        split; [rewrite HtrW; now rewrite <- app_assoc|].
        split; [|split].
        -- intros n o [H | H]; [discriminate | eauto].
        -- intros d [H | H]; [discriminate | eauto].
        -- discriminate.
Qed.

End RotationFacts.

(** X11.  An error that [openFile] leaves in [p.err] is reported at once:
    when [fetchNextLow] finds no record, the next [k] discoveries find
    nothing, the one after gives a finalized name and [openFile] leaves an
    error in [p.err], [FetchNext] returns true right after the open,
    without asking the new file for a record. *)
Theorem FetchNext_reports_open_error :
  forall (X : Type) (methods : fileConsumerMethods X) (w : World (fileConsumer X))
         (k : nat) (s0 s' s2 : fileConsumer X) (n : string) (e : errorValue)
         (fuel : nat),
    fetchNextLow methods (state w) = (false, s0) ->
    pollsTo methods k s0 s' ->
    nextFile methods (topic s') (name s') s' = ((n, None), s2) ->
    n <> "" ->
    ~ inProgress n ->
    err (snd (openFile methods n 0 s2)) = Some e ->
    (k < fuel)%nat ->
    FetchNext methods fuel w =
    (Some true,
     mkWorld (snd (openFile methods n 0 s2))
       (trace w ++ FetchNextLow false
                :: pollEvents methods k s0
                ++ [NextFile (topic s') (name s') n None; OpenFile n 0])).
Proof.
  intros X methods w k s0 s' s2 n e fuel Hlow Hpolls Hnext Hne Hfin Herr Hfuel.
  destruct fuel as [|fuel]; [lia|].
  rewrite (fetch_wait methods fuel w s0 Hlow).
  rewrite (wait_opens_after methods k s0 s' s2 n _ (S fuel) Hpolls Hnext Hne Hfin Hfuel).
  cbn [negb state]. rewrite Herr. now rewrite <- app_assoc.
Qed.

Lemma FetchNext_reports_open_error_witness :
  FetchNext openFails 1 (doubles.consumer [("T/1", None)]) =
  (Some true,
   mkWorld (mkFileConsumer "T" "" (Some doubles.errPermission) (doubles.mkEnv [] 0))
     [FetchNextLow false; NextFile "T" "" "T/1" None; OpenFile "T/1" 0]).
Proof.
  assert ("T/1" <> "") as Hne by discriminate.
  assert (~ inProgress "T/1") as Hfin.
  { intros H. apply HasSuffix_iff in H. discriminate. }
  apply (FetchNext_reports_open_error
           doubles.env openFails (doubles.consumer [("T/1", None)])
           0 _ _ (mkFileConsumer "T" "" None (doubles.mkEnv [] 0)) "T/1"
           doubles.errPermission 1
           eq_refl (pollsNone openFails _) eq_refl Hne Hfin eq_refl).
  lia.
Defined.

(** X12.  Rotation: when [fetchNextLow] finds no record, the next [k]
    discoveries find nothing, the one after gives a finalized name,
    [openFile] leaves [p.err] nil and the new file has a record,
    [FetchNext] returns true with that record fetched: one open at offset
    0, then one more call of [fetchNextLow]. *)
Theorem FetchNext_rotates_to_next_file :
  forall (X : Type) (methods : fileConsumerMethods X) (w : World (fileConsumer X))
         (k : nat) (s0 s' s2 s4 : fileConsumer X) (n : string) (fuel : nat),
    fetchNextLow methods (state w) = (false, s0) ->
    pollsTo methods k s0 s' ->
    nextFile methods (topic s') (name s') s' = ((n, None), s2) ->
    n <> "" ->
    ~ inProgress n ->
    err (snd (openFile methods n 0 s2)) = None ->
    fetchNextLow methods (snd (openFile methods n 0 s2)) = (true, s4) ->
    (k < fuel)%nat ->
    (2 <= fuel)%nat ->
    FetchNext methods fuel w =
    (Some true,
     mkWorld s4
       (trace w ++ FetchNextLow false
                :: pollEvents methods k s0
                ++ [NextFile (topic s') (name s') n None; OpenFile n 0;
                    FetchNextLow true])).
Proof.
  intros X methods w k s0 s' s2 s4 n fuel Hlow Hpolls Hnext Hne Hfin Herr Hrec
         Hfuel H2.
  destruct fuel as [|[|fuel]]; [lia | lia |].
  rewrite (fetch_wait methods (S fuel) w s0 Hlow).
  rewrite (wait_opens_after methods k s0 s' s2 n _ (S (S fuel))
             Hpolls Hnext Hne Hfin Hfuel).
  cbn [negb state]. rewrite Herr.
  match goal with
  | |- FetchNext methods (S fuel) ?w2 = _ =>
      rewrite (fetch_data methods fuel w2 s4 Hrec)
  end.
  cbn [trace].
  rewrite <- !app_assoc. reflexivity.
Qed.

Lemma FetchNext_rotates_to_next_file_witness :
  FetchNext doubles.scripted 2 (doubles.consumer [("T/1.open", None); ("T/1", None)]) =
  (Some true,
   mkWorld (mkFileConsumer "T" "T/1" None (doubles.mkEnv [] 0))
     [FetchNextLow false;
      NextFile "T" "" "T/1.open" None; Sleep (200 * time.Millisecond);
      NextFile "T" "" "T/1" None; OpenFile "T/1" 0; FetchNextLow true]).
Proof.
  assert (pollsTo doubles.scripted 1
            (state (doubles.consumer [("T/1.open", None); ("T/1", None)]))
            (mkFileConsumer "T" "" None (doubles.mkEnv [("T/1", None)] 0))) as Hpolls.
  { eapply pollsOnce; [reflexivity | right; now exists "T/1" |]. apply pollsNone. }
  assert ("T/1" <> "") as Hne by discriminate.
  assert (~ inProgress "T/1") as Hfin.
  { intros H. apply HasSuffix_iff in H. discriminate. }
  apply (FetchNext_rotates_to_next_file
           doubles.env doubles.scripted
           (doubles.consumer [("T/1.open", None); ("T/1", None)])
           1 _ _ (mkFileConsumer "T" "" None (doubles.mkEnv [] 0))
           (mkFileConsumer "T" "T/1" None (doubles.mkEnv [] 0)) "T/1" 2
           eq_refl Hpolls eq_refl Hne Hfin eq_refl eq_refl); lia.
Defined.

(** X13.  In every run of [FetchNext], complete or still polling, each
    file opened has a name that is not empty and does not carry the
    in-progress marker, and is opened at offset 0; every sleep lasts
    200 ms. *)
Theorem FetchNext_opens_finalized_only :
  forall (X : Type) (methods : fileConsumerMethods X) (fuel : nat)
         (w : World (fileConsumer X)),
  exists tr,
    trace (snd (FetchNext methods fuel w)) = trace w ++ tr /\
    (forall n offset,
        In (OpenFile n offset) tr -> n <> "" /\ ~ inProgress n /\ offset = 0) /\
    (forall d, In (Sleep d) tr -> d = 200 * time.Millisecond).
Proof.
  intros X methods fuel w.
  destruct (fetch_events methods fuel w) as [tr [Htr [Hop [Hsl _]]]].
  exists tr. auto.
Qed.

(** X14.  [FetchNext] returns true in two cases only: right after a call
    of [fetchNextLow] that returned true, or with an error in [p.err]. *)
Theorem FetchNext_true_means_record_or_error :
  forall (X : Type) (methods : fileConsumerMethods X) (fuel : nat)
         (w : World (fileConsumer X)),
    fst (FetchNext methods fuel w) = Some true ->
    (exists pre,
        trace (snd (FetchNext methods fuel w)) = pre ++ [FetchNextLow true]) \/
    (exists e, err (state (snd (FetchNext methods fuel w))) = Some e).
Proof.
  intros X methods fuel w Htrue.
  destruct (fetch_events methods fuel w) as [tr [Htr [_ [_ Hcases]]]].
  destruct (Hcases Htrue) as [[pre Hpre] | He]; [left | now right].
  exists (trace w ++ pre). rewrite Htr, Hpre. now rewrite <- app_assoc.
Qed.

Lemma FetchNext_true_means_record_or_error_witness :
  (exists pre,
      trace (snd (FetchNext doubles.scripted 2 (doubles.consumer [("T/1", None)]))) =
      pre ++ [FetchNextLow true]) \/
  (exists e,
      err (state (snd (FetchNext doubles.scripted 2 (doubles.consumer [("T/1", None)])))) =
      Some e).
Proof.
  apply (FetchNext_true_means_record_or_error
           doubles.env doubles.scripted 2 (doubles.consumer [("T/1", None)])).
  reflexivity.
Defined.
